(** * Schumaker shape-preserving quadratic spline: model and properties

    A shallow embedding of [schumaker_spline] (src/schumaker_spline.py).

    - Array entries are real numbers: the statements about this model are
      about the routine in exact arithmetic, not about its floating-point
      rounding.  Rounding can change which branch the routine takes, so
      the same lines are also modelled on binary64 numbers (module [F64]),
      as numpy computes them; what is said of the code whatever the
      rounding is proved there.
    - Python exceptions are modelled by an error monad.  A failed [assert]
      is an [AssertionError]; it is the validation failure of the
      specification.  Index accesses are checked as numpy checks them.
    - The local array [delta] exists only on the path that estimates the
      slopes; it is an [option], and reading it when unset raises
      [UnboundLocalError], as Python does.
    - Division is the total division of [R].  Once validation has passed,
      no divisor of the routine is zero (abscissae differences and chord
      lengths are positive, see [chord_pos]; the inserted knot is strictly
      inside its interval, see [new_knot_inside]), so the value given to
      [a / 0] is never used. *)

From Stdlib Require Import String.
From Stdlib Require Import PrimFloat.
From Stdlib Require Import Reals Lra Lia List Arith Bool.
Import ListNotations.
Local Open Scope R_scope.

(** ** Exceptions and the error monad *)

Inductive exn : Type :=
| AssertionError (msg : string)
| IndexError
| UnboundLocalError
| TypeError.

Inductive result (A : Type) : Type :=
| Ok (a : A)
| Raise (e : exn).

Arguments Ok {A} a.
Arguments Raise {A} e.

Definition bind {A B : Type} (c : result A) (k : A -> result B) : result B :=
  match c with
  | Ok a => k a
  | Raise e => Raise e
  end.

Notation "x <- c ;; k" := (bind c (fun x => k))
  (at level 61, c at next level, right associativity).
Notation "' p <- c ;; k" := (bind c (fun p => k))
  (at level 61, p pattern, c at next level, right associativity).

(** [assert cond, msg] *)
Definition assert (b : bool) (msg : string) : result unit :=
  if b then Ok tt else Raise (AssertionError msg).

(** [for i in idx: st = body(st, i)], stopping at the first exception. *)
Fixpoint for_each {S : Type} (idx : list nat) (body : S -> nat -> result S)
  (st : S) : result S :=
  match idx with
  | [] => Ok st
  | i :: rest => st' <- body st i ;; for_each rest body st'
  end.

(** ** Arrays *)

(** [a[i]] for a non-negative index: [IndexError] when out of range. *)
Definition getitem {A : Type} (l : list A) (i : nat) : result A :=
  match nth_error l i with
  | Some v => Ok v
  | None => Raise IndexError
  end.

Fixpoint update (l : list R) (i : nat) (v : R) : list R :=
  match l, i with
  | [], _ => []
  | _ :: t, O => v :: t
  | a :: t, S j => a :: update t j v
  end.

(** [a[i] = v] for a non-negative index: [IndexError] when out of range. *)
Definition setitem (l : list R) (i : nat) (v : R) : result (list R) :=
  if (i <? length l)%nat then Ok (update l i v) else Raise IndexError.

(** [np.diff] *)
Fixpoint diff (l : list R) : list R :=
  match l with
  | a :: ((b :: _) as t) => (b - a) :: diff t
  | _ => []
  end.

(** Element-wise operation on two arrays (only used on arrays of equal
    length, the two [np.diff] results after the length assertion). *)
Fixpoint map2 (f : R -> R -> R) (l1 l2 : list R) : list R :=
  match l1, l2 with
  | a :: t1, b :: t2 => f a b :: map2 f t1 t2
  | _, _ => []
  end.

Definition Rltb (a b : R) : bool := if Rlt_dec a b then true else false.

(** [np.all(d > 0)] *)
Definition all_positive (d : list R) : bool := forallb (fun v => Rltb 0 v) d.

(** ** Slope estimation (lines 28-38) *)

Definition chord_lengths (x y : list R) : list R :=
  map2 (fun dx dy => sqrt (dx ^ 2 + dy ^ 2)) (diff x) (diff y).

Definition secants (x y : list R) : list R :=
  map2 (fun dy dx => dy / dx) (diff y) (diff x).

(** Body of the loop over the interior points, lines 33-36. *)
Definition slope_step (L delta : list R) (s : list R) (i : nat)
  : result (list R) :=
  d0 <- getitem delta (i - 1) ;;
  d1 <- getitem delta i ;;
  if Rlt_dec 0 (d0 * d1) then
    L0 <- getitem L (i - 1) ;;
    L1 <- getitem L i ;;
    setitem s i ((L0 * d0 + L1 * d1) / (L0 + L1))
  else
    setitem s i 0.

(** Lines 29-38.  [n - 2] is only reached when [delta[0]] exists, that is
    for [n >= 2], where it is the natural-number subtraction. *)
Definition estimate_slopes (x y : list R) : result (list R) :=
  let n := length x in
  let L := chord_lengths x y in
  let delta := secants x y in
  s <- for_each (seq 1 (n - 2)) (slope_step L delta) (repeat 0 n) ;;
  d0 <- getitem delta 0 ;;
  s1 <- getitem s 1 ;;
  s <- setitem s 0 ((3 * d0 - s1) / 2) ;;
  dl <- getitem delta (n - 2) ;;
  sl <- getitem s (n - 2) ;;
  setitem s (n - 1) ((3 * dl - sl) / 2).

(** ** Segment construction (lines 41-83) *)

Definition coeff : Type := (R * R * R)%type.

(** The local name [delta] is bound only on the path that estimates the
    slopes; reading it elsewhere raises [UnboundLocalError]. *)
Definition read_local {A : Type} (v : option A) : result A :=
  match v with
  | Some a => Ok a
  | None => Raise UnboundLocalError
  end.

(** Knot placement, lines 52-59. *)
Definition new_knot (xi xi1 si si1 di : R) : R :=
  if Rge_dec ((si - di) * (si1 - di)) 0 then
    (xi + xi1) / 2
  else if Rlt_dec (Rabs (si1 - di)) (Rabs (si - di)) then
    let e_temp := xi + 2 * (xi1 - xi) * (si1 - di) / (si1 - si) in
    (xi + e_temp) / 2
  else
    let e_temp := xi1 + 2 * (xi1 - xi) * (si - di) / (si1 - si) in
    (xi1 + e_temp) / 2.

(** The two quadratics of a subdivided interval, lines 65-81. *)
Definition split_coeffs (xi xi1 yi yi1 si si1 e : R) : coeff * coeff :=
  let alpha := e - xi in
  let beta := xi1 - e in
  let s_bar := (2 * (yi1 - yi) - (alpha * si + beta * si1)) / (xi1 - xi) in
  let A1 := yi in
  let B1 := si in
  let C1 := (s_bar - si) / (2 * alpha) in
  let A2 := A1 + alpha * B1 + alpha ^ 2 * C1 in
  let B2 := s_bar in
  let C2 := (si1 - s_bar) / (2 * beta) in
  ((A1, B1, C1), (A2, B2, C2)).

(** Body of the loop over the intervals, lines 43-81. *)
Definition interval_step (x y s : list R) (delta : option (list R))
  (st : list R * list coeff) (i : nat) : result (list R * list coeff) :=
  let '(knots, coeffs) := st in
  xi <- getitem x i ;;
  let knots := knots ++ [xi] in
  si <- getitem s i ;;
  si1 <- getitem s (i + 1) ;;
  yi1 <- getitem y (i + 1) ;;
  yi <- getitem y i ;;
  xi1 <- getitem x (i + 1) ;;
  if Req_dec_T ((si + si1) / 2) ((yi1 - yi) / (xi1 - xi)) then
    Ok (knots, coeffs ++ [(yi, si, (si1 - si) / (2 * (xi1 - xi)))])
  else
    dl <- read_local delta ;;
    di <- getitem dl i ;;
    let e := new_knot xi xi1 si si1 di in
    let knots := knots ++ [e] in
    let '(c1, c2) := split_coeffs xi xi1 yi yi1 si si1 e in
    Ok (knots, (coeffs ++ [c1]) ++ [c2]).

(** ** Symbolic export (lines 87-96) *)

Inductive expr : Type :=
| Sym
| Num (r : R)
| Add (a b : expr)
| Sub (a b : expr)
| Mul (a b : expr)
| Pow (a : expr) (k : nat).

Inductive cond : Type :=
| Ge (a b : expr)
| Le (a b : expr)
| And (c d : cond).

Definition piece : Type := (expr * cond)%type.

(** [a + b*(x_sym - t) + c*(x_sym - t)**2] *)
Definition quadratic (a b c t : R) : expr :=
  Add (Add (Num a) (Mul (Num b) (Sub Sym (Num t))))
      (Mul (Num c) (Pow (Sub Sym (Num t)) 2)).

(** [(x_sym >= t) & (x_sym <= t')] *)
Definition condition (t t' : R) : cond :=
  And (Ge Sym (Num t)) (Le Sym (Num t')).

Definition piece_step (knots : list R) (coeffs : list coeff)
  (pieces : list piece) (i : nat) : result (list piece) :=
  t <- getitem knots i ;;
  '(a, b, c) <- getitem coeffs i ;;
  t' <- getitem knots (i + 1) ;;
  Ok (pieces ++ [(quadratic a b c t, condition t t')]).

Inductive output : Type :=
| OutCoeffs (knots : list R) (coeffs : list coeff)
| OutPiecewise (pieces : list piece)
| OutNone.

(** [Piecewise] applied to the pieces.  The result is represented by the
    argument list the constructor receives (sympy's own rewriting of a
    piecewise expression is outside the source); sympy refuses an empty
    argument list. *)
Definition Piecewise (pieces : list piece) : result output :=
  match pieces with
  | [] => Raise TypeError
  | _ => Ok (OutPiecewise pieces)
  end.

(** ** The routine *)

Definition build (x y : list R) (s : option (list R))
  : result (list R * list coeff) :=
  let n := length x in
  _ <- assert (length y =? n)%nat "x and y must have the same length" ;;
  _ <- assert (all_positive (diff x)) "x must be in ascending order" ;;
  _ <- match s with
       | Some sl => assert (length sl =? n)%nat
                      "s must have the same length as x and y"
       | None => Ok tt
       end ;;
  '(s, delta) <- match s with
                 | None => sl <- estimate_slopes x y ;;
                           Ok (sl, Some (secants x y))
                 | Some sl => Ok (sl, None)
                 end ;;
  '(knots, coeffs) <- for_each (seq 0 (n - 1)) (interval_step x y s delta)
                        ([], []) ;;
  xl <- getitem x (n - 1) ;;
  Ok (knots ++ [xl], coeffs).

Definition schumaker_spline (x y : list R) (s : option (list R))
  (return_type : string) : result output :=
  '(knots, coeffs) <- build x y s ;;
  if String.eqb return_type "coeffs" then
    Ok (OutCoeffs knots coeffs)
  else if String.eqb return_type "sympy" then
    pieces <- for_each (seq 0 (length knots - 1)) (piece_step knots coeffs) [] ;;
    Piecewise pieces
  else
    Ok OutNone.

(** ** Meaning of exported expressions *)

Fixpoint expr_eval (e : expr) (x : R) : R :=
  match e with
  | Sym => x
  | Num r => r
  | Add a b => expr_eval a x + expr_eval b x
  | Sub a b => expr_eval a x - expr_eval b x
  | Mul a b => expr_eval a x * expr_eval b x
  | Pow a k => expr_eval a x ^ k
  end.

Fixpoint cond_holds (c : cond) (x : R) : Prop :=
  match c with
  | Ge a b => expr_eval a x >= expr_eval b x
  | Le a b => expr_eval a x <= expr_eval b x
  | And c d => cond_holds c x /\ cond_holds d x
  end.

(** Value at [t'] of the quadratic with coefficients [c] and left knot [t]. *)
Definition quad_eval (c : coeff) (t t' : R) : R :=
  let '(a, b, c2) := c in a + b * (t' - t) + c2 * (t' - t) ^ 2.

Definition coeff_A (c : coeff) : R := fst (fst c).

Definition zero_coeff : coeff := (0, 0, 0).

(** ** The input contract *)

Definition strictly_increasing (x : list R) : Prop :=
  forall i : nat, (S i < length x)%nat -> nth i x 0 < nth (S i) x 0.

(** A well-formed input: the preconditions of the construction routine. *)
Definition valid_input (x y : list R) (s : option (list R)) : Prop :=
  length y = length x /\ (2 <= length x)%nat /\ strictly_increasing x /\
  match s with Some sl => length sl = length x | None => True end.

(** What the three assertions of lines 21-25 reject. *)
Definition malformed (x y : list R) (s : option (list R)) : Prop :=
  length y <> length x \/ ~ strictly_increasing x \/
  (exists sl, s = Some sl /\ length sl <> length x).

(** ** Intervals, loops and invariants *)

(** The secant slope of interval [i], as the test of line 46 writes it. *)
Definition secant (x y : list R) (i : nat) : R :=
  (nth (i + 1) y 0 - nth i y 0) / (nth (i + 1) x 0 - nth i x 0).

(** The triple appended at line 47. *)
Definition single_coeff (x y s : list R) (i : nat) : coeff :=
  (nth i y 0, nth i s 0,
   (nth (i + 1) s 0 - nth i s 0) / (2 * (nth (i + 1) x 0 - nth i x 0))).

(** The knot inserted in interval [i] when [delta[i]] is [di]. *)
Definition knot_of (x s : list R) (i : nat) (di : R) : R :=
  new_knot (nth i x 0) (nth (i + 1) x 0) (nth i s 0) (nth (i + 1) s 0) di.

(** The two triples appended at lines 75-81. *)
Definition pair_of (x y s : list R) (i : nat) (di : R) : coeff * coeff :=
  split_coeffs (nth i x 0) (nth (i + 1) x 0) (nth i y 0) (nth (i + 1) y 0)
    (nth i s 0) (nth (i + 1) s 0) (knot_of x s i di).

(** The construction loop run for [k] intervals. *)
Definition segments (x y s : list R) (delta : option (list R)) (k : nat)
  : result (list R * list coeff) :=
  for_each (seq 0 k) (interval_step x y s delta) ([], []).

(** Chord length of interval [i]: sqrt(dx^2 + dy^2). *)
Definition chord (x y : list R) (i : nat) : R :=
  sqrt ((nth (i + 1) x 0 - nth i x 0) ^ 2 + (nth (i + 1) y 0 - nth i y 0) ^ 2).

(** The slope rule at an interior point [i], in the words of the
    specification. *)
Definition interior_slope (x y : list R) (i : nat) : R :=
  if Rlt_dec 0 (secant x y (i - 1) * secant x y i) then
    (chord x y (i - 1) * secant x y (i - 1) + chord x y i * secant x y i)
    / (chord x y (i - 1) + chord x y i)
  else 0.

(** The loop over the interior points, lines 31-36, run for [m] rounds. *)
Definition interior_loop (x y : list R) (m : nat) : result (list R) :=
  for_each (seq 1 m) (slope_step (chord_lengths x y) (secants x y))
    (repeat 0 (length x)).

(** [chain K C tend yend]: the pieces [C], with left knots [K], have
    increasing knots up to [tend], each piece ends on the value where the
    next one starts, and the last one ends on [yend]. *)
Fixpoint chain (K : list R) (C : list coeff) (tend yend : R) : Prop :=
  match K, C with
  | [], [] => True
  | t :: K', c :: C' =>
      t < hd tend K' /\
      quad_eval c t (hd tend K') = hd yend (map coeff_A C') /\
      chain K' C' tend yend
  | _, _ => False
  end.

(** Invariant of the construction loop after [k] intervals. *)
Definition seg_inv (x y : list R) (k : nat) (st : list R * list coeff) : Prop :=
  chain (fst st) (snd st) (nth k x 0) (nth k y 0) /\
  (k <= length (fst st) <= 2 * k)%nat /\
  hd (nth k x 0) (fst st) = nth 0 x 0.

(** The result is not a failed assertion. *)
Definition not_assertion {A : Type} (r : result A) : Prop :=
  match r with
  | Raise (AssertionError _) => False
  | _ => True
  end.

(** The routine after validation: slopes, loop, last knot. *)
Definition slopes_of (x y : list R) (s : option (list R))
  : result (list R * option (list R)) :=
  match s with
  | None => sl <- estimate_slopes x y ;; Ok (sl, Some (secants x y))
  | Some sl => Ok (sl, None)
  end.

Definition construct (x y : list R) (s : option (list R))
  : result (list R * list coeff) :=
  '(sl, delta) <- slopes_of x y s ;;
  '(knots, coeffs) <- segments x y sl delta (length x - 1) ;;
  xl <- getitem x (length x - 1) ;;
  Ok (knots ++ [xl], coeffs).

(** Piece [i] of the export: the quadratic of sub-interval [i] with the
    closed interval between its knots. *)
Definition piece_at (K : list R) (C : list coeff) (i : nat) : piece :=
  let '(a, b, c) := nth i C zero_coeff in
  (quadratic a b c (nth i K 0), condition (nth i K 0) (nth (i + 1) K 0)).

(** An input whose second interval is split very close to its right end. *)
Definition tiny_x : list R :=
  [0; 4 / 1000000000; 12000000004 / 1000000000; 13000000004 / 1000000000].

Definition tiny_y : list R :=
  [0; 3 / 1000000000; 5000000003 / 1000000000; 5000000003 / 1000000000].

(** ** Values, slopes and derivatives of the pieces *)

Definition coeff_B (c : coeff) : R := snd (fst c).

Definition coeff_C (c : coeff) : R := snd c.

(** Derivative at [t'] of the quadratic with coefficients [c] and left knot
    [t] (see [quad_eval_derivative]). *)
Definition deriv_eval (c : coeff) (t t' : R) : R :=
  coeff_B c + 2 * coeff_C c * (t' - t).

(** [links f g K C tend vend]: for each piece, the quantity [f] at its right
    knot is the quantity [g] of the next piece, and [vend] for the last. *)
Fixpoint links (f : coeff -> R -> R -> R) (g : coeff -> R)
  (K : list R) (C : list coeff) (tend vend : R) : Prop :=
  match K, C with
  | [], [] => True
  | t :: K', c :: C' =>
      f c t (hd tend K') = hd vend (map g C') /\ links f g K' C' tend vend
  | _, _ => False
  end.

(** After [k] intervals: the derivatives are linked up to the slope [s[k]],
    and every data point met so far starts a piece with its value and its
    slope. *)
Definition data_inv (x y s : list R) (k : nat) (st : list R * list coeff)
  : Prop :=
  links deriv_eval coeff_B (fst st) (snd st) (nth k x 0) (nth k s 0) /\
  forall i, (i < k)%nat ->
    exists j, (j < length (fst st))%nat /\
      nth j (fst st) 0 = nth i x 0 /\
      coeff_A (nth j (snd st) zero_coeff) = nth i y 0 /\
      coeff_B (nth j (snd st) zero_coeff) = nth i s 0.


(** ** Shifting the data *)

Definition map_result {A B : Type} (f : A -> B) (r : result A) : result B :=
  match r with
  | Ok a => Ok (f a)
  | Raise e => Raise e
  end.

(** The triple of the same quadratic raised by [c]. *)
Definition raise_coeff (c : R) (q : coeff) : coeff :=
  (coeff_A q + c, coeff_B q, coeff_C q).

(** A coefficient-mode result raised by [c]; other results are unchanged. *)
Definition raise_output (c : R) (o : output) : output :=
  match o with
  | OutCoeffs K C => OutCoeffs K (map (raise_coeff c) C)
  | _ => o
  end.

(** A coefficient-mode result moved to the right by [c]. *)
Definition move_output (c : R) (o : output) : output :=
  match o with
  | OutCoeffs K C => OutCoeffs (map (fun t => t + c) K) C
  | _ => o
  end.

(** The triple of the mirrored quadratic. *)
Definition negate_coeff (q : coeff) : coeff :=
  (- coeff_A q, - coeff_B q, - coeff_C q).

(** A coefficient-mode result mirrored in the x axis. *)
Definition negate_output (o : output) : output :=
  match o with
  | OutCoeffs K C => OutCoeffs K (map negate_coeff C)
  | _ => o
  end.

(** ** The routine in binary64

    The same lines of the source, computed as numpy computes them: on IEEE
    binary64 numbers with rounded operations, comparisons that are false on
    NaN, and divisions by zero that give an infinity or a NaN without
    raising.  Coefficient mode only (lines 19-86). *)

Module F64.

Local Open Scope float_scope.

Fixpoint update (l : list float) (i : nat) (v : float) : list float :=
  match l, i with
  | [], _ => []
  | _ :: t, O => v :: t
  | a :: t, S j => a :: update t j v
  end.

Definition setitem (l : list float) (i : nat) (v : float)
  : result (list float) :=
  if (i <? length l)%nat then Ok (update l i v) else Raise IndexError.

Fixpoint diff (l : list float) : list float :=
  match l with
  | a :: ((b :: _) as t) => (b - a) :: diff t
  | _ => []
  end.

Fixpoint map2 (f : float -> float -> float) (l1 l2 : list float)
  : list float :=
  match l1, l2 with
  | a :: t1, b :: t2 => f a b :: map2 f t1 t2
  | _, _ => []
  end.

(** [np.all(d > 0)] *)
Definition all_positive (d : list float) : bool :=
  forallb (fun v => 0 <? v) d.

(** [np.diff(x)**2] is the rounded square. *)
Definition chord_lengths (x y : list float) : list float :=
  map2 (fun dx dy => PrimFloat.sqrt (dx * dx + dy * dy)) (diff x) (diff y).

Definition secants (x y : list float) : list float :=
  map2 (fun dy dx => dy / dx) (diff y) (diff x).

Definition slope_step (L delta : list float) (s : list float) (i : nat)
  : result (list float) :=
  d0 <- getitem delta (i - 1) ;;
  d1 <- getitem delta i ;;
  if 0 <? d0 * d1 then
    L0 <- getitem L (i - 1) ;;
    L1 <- getitem L i ;;
    setitem s i ((L0 * d0 + L1 * d1) / (L0 + L1))
  else
    setitem s i 0.

Definition estimate_slopes (x y : list float) : result (list float) :=
  let n := length x in
  let L := chord_lengths x y in
  let delta := secants x y in
  s <- for_each (seq 1 (n - 2)) (slope_step L delta) (repeat 0 n) ;;
  d0 <- getitem delta 0 ;;
  s1 <- getitem s 1 ;;
  s <- setitem s 0 ((3 * d0 - s1) / 2) ;;
  dl <- getitem delta (n - 2) ;;
  sl <- getitem s (n - 2) ;;
  setitem s (n - 1) ((3 * dl - sl) / 2).

Definition coeff : Type := (float * float * float)%type.

Definition new_knot (xi xi1 si si1 di : float) : float :=
  if 0 <=? (si - di) * (si1 - di) then
    (xi + xi1) / 2
  else if PrimFloat.abs (si1 - di) <? PrimFloat.abs (si - di) then
    let e_temp := xi + 2 * (xi1 - xi) * (si1 - di) / (si1 - si) in
    (xi + e_temp) / 2
  else
    let e_temp := xi1 + 2 * (xi1 - xi) * (si - di) / (si1 - si) in
    (xi1 + e_temp) / 2.

(** [alpha**2] is taken as the rounded square. *)
Definition split_coeffs (xi xi1 yi yi1 si si1 e : float) : coeff * coeff :=
  let alpha := e - xi in
  let beta := xi1 - e in
  let s_bar := (2 * (yi1 - yi) - (alpha * si + beta * si1)) / (xi1 - xi) in
  let A1 := yi in
  let B1 := si in
  let C1 := (s_bar - si) / (2 * alpha) in
  let A2 := A1 + alpha * B1 + alpha * alpha * C1 in
  let B2 := s_bar in
  let C2 := (si1 - s_bar) / (2 * beta) in
  ((A1, B1, C1), (A2, B2, C2)).

Definition interval_step (x y s : list float) (delta : option (list float))
  (st : list float * list coeff) (i : nat)
  : result (list float * list coeff) :=
  let '(knots, coeffs) := st in
  xi <- getitem x i ;;
  let knots := knots ++ [xi] in
  si <- getitem s i ;;
  si1 <- getitem s (i + 1) ;;
  yi1 <- getitem y (i + 1) ;;
  yi <- getitem y i ;;
  xi1 <- getitem x (i + 1) ;;
  if (si + si1) / 2 =? (yi1 - yi) / (xi1 - xi) then
    Ok (knots, coeffs ++ [(yi, si, (si1 - si) / (2 * (xi1 - xi)))])
  else
    dl <- read_local delta ;;
    di <- getitem dl i ;;
    let e := new_knot xi xi1 si si1 di in
    let knots := knots ++ [e] in
    let '(c1, c2) := split_coeffs xi xi1 yi yi1 si si1 e in
    Ok (knots, (coeffs ++ [c1]) ++ [c2]).

(** Lines 19-86 with [return_type = 'coeffs']. *)
Definition schumaker_coeffs (x y : list float) (s : option (list float))
  : result (list float * list coeff) :=
  let n := length x in
  _ <- assert (length y =? n)%nat "x and y must have the same length" ;;
  _ <- assert (all_positive (diff x)) "x must be in ascending order" ;;
  _ <- match s with
       | Some sl => assert (length sl =? n)%nat
                      "s must have the same length as x and y"
       | None => Ok tt
       end ;;
  '(s, delta) <- match s with
                 | None => sl <- estimate_slopes x y ;;
                           Ok (sl, Some (secants x y))
                 | Some sl => Ok (sl, None)
                 end ;;
  '(knots, coeffs) <- for_each (seq 0 (n - 1)) (interval_step x y s delta)
                        ([], []) ;;
  xl <- getitem x (n - 1) ;;
  Ok (knots ++ [xl], coeffs).

End F64.

(** A well-formed binary64 input: what the three assertions accept, with at
    least two points. *)
Definition f64_valid_input (x y : list float) (s : option (list float))
  : Prop :=
  length y = length x /\ (2 <= length x)%nat /\
  F64.all_positive (F64.diff x) = true /\
  match s with Some sl => length sl = length x | None => True end.

(** The binary64 construction loop run for [k] intervals. *)
Definition f64_segments (x y s : list float) (delta : option (list float))
  (k : nat) : result (list float * list F64.coeff) :=
  for_each (seq 0 k) (F64.interval_step x y s delta) ([], []).

(** What the binary64 loop keeps after [k] intervals, whatever the
    rounding: one or two knots per interval, as many triples as knots, and
    the first knot [x[0]]. *)
Definition f64_inv (x : list float) (k : nat)
  (st : list float * list F64.coeff) : Prop :=
  length (snd st) = length (fst st) /\
  (k <= length (fst st) <= 2 * k)%nat /\
  hd (nth k x 0%float) (fst st) = nth 0 x 0%float.

(** An input on which binary64 rounding puts an inserted knot on the right
    end of its interval. *)
Definition rounded_x : list float := [0; 1; 5; 6]%float.

Definition rounded_y : list float := [0; 6; 30; 30]%float.

(** ** Basic facts about arrays *)

Lemma getitem_nth {A : Type} (l : list A) (i : nat) (d : A) :
  (i < length l)%nat -> getitem l i = Ok (nth i l d).
Proof.
  intros H. unfold getitem.
  rewrite (nth_error_nth' l d H). reflexivity.
Qed.

Lemma getitem_Ok {A : Type} (l : list A) (i : nat) (v : A) (d : A) :
  getitem l i = Ok v -> (i < length l)%nat /\ nth i l d = v.
Proof.
  unfold getitem. destruct (nth_error l i) eqn:E; [|discriminate].
  intros H. injection H as ->. split.
  - apply nth_error_Some. congruence.
  - apply nth_error_nth. exact E.
Qed.

Lemma getitem_out {A : Type} (l : list A) (i : nat) :
  (length l <= i)%nat -> getitem l i = Raise IndexError.
Proof.
  intros H. unfold getitem.
  apply nth_error_None in H. rewrite H. reflexivity.
Qed.

Lemma length_update (l : list R) (i : nat) (v : R) :
  length (update l i v) = length l.
Proof.
  revert i; induction l as [|a l IH]; intros [|i]; simpl; auto.
Qed.

Lemma nth_update_eq (l : list R) (i : nat) (v d : R) :
  (i < length l)%nat -> nth i (update l i v) d = v.
Proof.
  revert i; induction l as [|a l IH]; intros [|i] H; simpl in *; try lia; auto.
  apply IH. lia.
Qed.

Lemma nth_update_neq (l : list R) (i j : nat) (v d : R) :
  i <> j -> nth j (update l i v) d = nth j l d.
Proof.
  revert i j; induction l as [|a l IH]; intros [|i] [|j] H; simpl; auto; try lia.
Qed.

Lemma setitem_in (l : list R) (i : nat) (v : R) :
  (i < length l)%nat -> setitem l i v = Ok (update l i v).
Proof.
  intros H. unfold setitem.
  destruct (Nat.ltb_spec i (length l)); [reflexivity | lia].
Qed.

Lemma length_diff (l : list R) : length (diff l) = (length l - 1)%nat.
Proof.
  induction l as [|a [|b t] IH]; simpl in *; auto.
  rewrite IH. lia.
Qed.

Lemma nth_diff (l : list R) (i : nat) :
  (S i < length l)%nat -> nth i (diff l) 0 = nth (S i) l 0 - nth i l 0.
Proof.
  revert i; induction l as [|a [|b t] IH]; intros i H; simpl in H; try lia.
  destruct i as [|i].
  - reflexivity.
  - change (nth i (diff (b :: t)) 0 = nth (S i) (b :: t) 0 - nth i (b :: t) 0).
    apply IH. simpl. lia.
Qed.

Lemma length_map2 (f : R -> R -> R) (l1 l2 : list R) :
  length (map2 f l1 l2) = Nat.min (length l1) (length l2).
Proof.
  revert l2; induction l1 as [|a l1 IH]; intros [|b l2]; simpl; auto.
Qed.

Lemma nth_map2 (f : R -> R -> R) (l1 l2 : list R) (i : nat) (d : R) :
  (i < length l1)%nat -> (i < length l2)%nat ->
  nth i (map2 f l1 l2) d = f (nth i l1 0) (nth i l2 0).
Proof.
  revert l2 i; induction l1 as [|a l1 IH]; intros [|b l2] [|i] H1 H2;
    simpl in *; try lia; auto.
  apply IH; lia.
Qed.

Lemma for_each_app {S : Type} (l1 l2 : list nat) (body : S -> nat -> result S)
  (st : S) :
  for_each (l1 ++ l2) body st = (st' <- for_each l1 body st ;; for_each l2 body st').
Proof.
  revert st; induction l1 as [|i l1 IH]; intros st; simpl; auto.
  destruct (body st i); simpl; auto.
Qed.

(** ** Strictly increasing abscissae *)

Lemma all_positive_true (d : list R) :
  all_positive d = true <-> (forall i, (i < length d)%nat -> 0 < nth i d 0).
Proof.
  unfold all_positive. induction d as [|a d IH]; simpl.
  - split; auto. intros _ i H. lia.
  - rewrite andb_true_iff, IH. unfold Rltb. split.
    + intros [Ha Hd] [|i] Hi.
      * destruct (Rlt_dec 0 a); [assumption | discriminate].
      * apply Hd. lia.
    + intros H. split.
      * destruct (Rlt_dec 0 a) as [|n]; [reflexivity|].
        exfalso. apply n. apply (H 0%nat). lia.
      * intros i Hi. apply (H (S i)). lia.
Qed.

Lemma all_positive_diff (x : list R) :
  all_positive (diff x) = true <-> strictly_increasing x.
Proof.
  rewrite all_positive_true. unfold strictly_increasing. split.
  - intros H i Hi. specialize (H i). rewrite length_diff, nth_diff in H by lia.
    assert (0 < nth (S i) x 0 - nth i x 0) by (apply H; lia). lra.
  - intros H i Hi. rewrite length_diff in Hi. rewrite nth_diff by lia.
    specialize (H i). assert (nth i x 0 < nth (S i) x 0) by (apply H; lia). lra.
Qed.

(** ** Knot placement stays inside the interval *)

Lemma not_mid_signs (a b : R) :
  ~ a * b >= 0 -> (a < 0 /\ 0 < b) \/ (0 < a /\ b < 0).
Proof.
  intros H.
  destruct (Rlt_le_dec a 0) as [Ha|Ha]; destruct (Rlt_le_dec 0 b) as [Hb|Hb];
    try (left; split; assumption); try (right; split; [nra|nra]); exfalso; apply H; nra.
Qed.

Lemma ratio_bounds (p q : R) :
  0 < p -> 0 < q -> 0 < p / (p + q) < 1.
Proof.
  intros Hp Hq.
  assert (Hs : 0 < p + q) by lra.
  split.
  - apply Rdiv_lt_0_compat; assumption.
  - apply (Rmult_lt_reg_r (p + q)); [assumption|].
    unfold Rdiv. rewrite Rmult_assoc, Rinv_l by lra. lra.
Qed.

Lemma scaled_inside (xi xi1 q : R) :
  xi < xi1 -> 0 < q < 1 ->
  xi < xi + (xi1 - xi) * q < xi1 /\ xi < xi1 - (xi1 - xi) * q < xi1.
Proof.
  intros Hx [Q1 Q2].
  assert (H1 : 0 < (xi1 - xi) * q) by (apply Rmult_lt_0_compat; lra).
  assert (H2 : (xi1 - xi) * q < (xi1 - xi) * 1) by (apply Rmult_lt_compat_l; lra).
  lra.
Qed.

Lemma new_knot_inside (xi xi1 si si1 di : R) :
  xi < xi1 -> xi < new_knot xi xi1 si si1 di < xi1.
Proof.
  intros Hx. unfold new_knot.
  destruct (Rge_dec ((si - di) * (si1 - di)) 0) as [Hm|Hm]; [lra|].
  apply not_mid_signs in Hm.
  destruct (Rlt_dec (Rabs (si1 - di)) (Rabs (si - di))) as [Hc|Hc].
  - destruct Hm as [[Ha Hb]|[Ha Hb]].
    + destruct (ratio_bounds (si1 - di) (-(si - di))) as [Q1 Q2]; try lra.
      replace ((xi + (xi + 2 * (xi1 - xi) * (si1 - di) / (si1 - si))) / 2)
        with (xi + (xi1 - xi) * ((si1 - di) / (si1 - di + - (si - di)))) by (field; lra).
      apply scaled_inside; auto.
    + destruct (ratio_bounds (-(si1 - di)) (si - di)) as [Q1 Q2]; try lra.
      replace ((xi + (xi + 2 * (xi1 - xi) * (si1 - di) / (si1 - si))) / 2)
        with (xi + (xi1 - xi) * (- (si1 - di) / (- (si1 - di) + (si - di)))) by (field; lra).
      apply scaled_inside; auto.
  - destruct Hm as [[Ha Hb]|[Ha Hb]].
    + destruct (ratio_bounds (-(si - di)) (si1 - di)) as [Q1 Q2]; try lra.
      replace ((xi1 + (xi1 + 2 * (xi1 - xi) * (si - di) / (si1 - si))) / 2)
        with (xi1 - (xi1 - xi) * (- (si - di) / (- (si - di) + (si1 - di)))) by (field; lra).
      apply scaled_inside; auto.
    + destruct (ratio_bounds (si - di) (-(si1 - di))) as [Q1 Q2]; try lra.
      replace ((xi1 + (xi1 + 2 * (xi1 - xi) * (si - di) / (si1 - si))) / 2)
        with (xi1 - (xi1 - xi) * ((si - di) / ((si - di) + - (si1 - di)))) by (field; lra).
      apply scaled_inside; auto.
Qed.

Lemma split_coeffs_left (xi xi1 yi yi1 si si1 e : R) :
  let '(c1, c2) := split_coeffs xi xi1 yi yi1 si si1 e in
  coeff_A c1 = yi /\ quad_eval c1 xi e = coeff_A c2.
Proof.
  unfold split_coeffs, quad_eval, coeff_A. simpl. split; [reflexivity | ring].
Qed.

Lemma split_coeffs_right (xi xi1 yi yi1 si si1 e : R) :
  xi < e < xi1 ->
  quad_eval (snd (split_coeffs xi xi1 yi yi1 si si1 e)) e xi1 = yi1.
Proof.
  intros [H1 H2]. unfold split_coeffs, quad_eval. simpl. field. lra.
Qed.

Lemma single_coeff_right (xi xi1 yi yi1 si si1 : R) :
  xi < xi1 -> (si + si1) / 2 = (yi1 - yi) / (xi1 - xi) ->
  quad_eval (yi, si, (si1 - si) / (2 * (xi1 - xi))) xi xi1 = yi1.
Proof.
  intros Hx H. unfold quad_eval.
  assert (E : yi1 - yi = (si + si1) / 2 * (xi1 - xi)).
  { rewrite H. field. lra. }
  replace (yi + si * (xi1 - xi) + (si1 - si) / (2 * (xi1 - xi)) * (xi1 - xi) ^ 2)
    with (yi + (si + si1) / 2 * (xi1 - xi)) by (field; lra).
  lra.
Qed.

(** ** Chains of quadratic pieces *)

Lemma chain_length (K : list R) (C : list coeff) (tend yend : R) :
  chain K C tend yend -> length C = length K.
Proof.
  revert C; induction K as [|t K IH]; intros [|c C] H; simpl in *; try tauto.
  f_equal. apply IH. tauto.
Qed.

Lemma chain_snoc (K : list R) (C : list coeff) (t y t' y' : R) (c : coeff) :
  chain K C t y -> coeff_A c = y -> t < t' -> quad_eval c t t' = y' ->
  chain (K ++ [t]) (C ++ [c]) t' y'.
Proof.
  intros H HA Ht Hq. revert C H.
  induction K as [|t0 K IH]; intros [|c0 C] H; simpl in H; try tauto.
  - simpl. auto.
  - destruct H as (H1 & H2 & H3).
    change (chain (t0 :: (K ++ [t])) (c0 :: (C ++ [c])) t' y').
    cbn [chain]. repeat split.
    + destruct K; simpl in *; assumption.
    + pose proof (chain_length _ _ _ _ H3) as HL.
      destruct K, C; simpl in *; try discriminate; try congruence.
    + apply IH. assumption.
Qed.

Lemma chain_increasing (K : list R) (C : list coeff) (tend yend : R) :
  chain K C tend yend -> strictly_increasing (K ++ [tend]).
Proof.
  revert C; induction K as [|t K IH]; intros [|c C] H; simpl in H; try tauto.
  - intros i Hi. simpl in Hi. lia.
  - destruct H as (H1 & _ & H3). specialize (IH _ H3).
    intros [|i] Hi.
    + destruct K; simpl in *; assumption.
    + apply (IH i). simpl in Hi. lia.
Qed.

Lemma chain_continuous (K : list R) (C : list coeff) (tend yend : R) :
  chain K C tend yend ->
  forall j, (S j < length K)%nat ->
    quad_eval (nth j C zero_coeff) (nth j (K ++ [tend]) 0)
              (nth (S j) (K ++ [tend]) 0)
    = coeff_A (nth (S j) C zero_coeff).
Proof.
  revert C; induction K as [|t K IH]; intros [|c C] H j Hj; simpl in H, Hj;
    try tauto; try lia.
  destruct H as (_ & H2 & H3).
  destruct j as [|j].
  - destruct K as [|t1 K]; [simpl in Hj; lia|].
    destruct C as [|c1 C]; [simpl in H3; tauto|].
    simpl in *. assumption.
  - apply (IH _ H3 j). lia.
Qed.

Lemma chain_hd (K : list R) (C : list coeff) (t y t' y' : R) :
  chain K C t y -> hd t' (K ++ [t]) = hd t K.
Proof. destruct K; reflexivity. Qed.

(** ** One interval of the construction loop *)

Section Interval.

Variables x y s : list R.
Hypothesis Hy : length y = length x.
Hypothesis Hs : length s = length x.

Lemma interval_step_eq (delta : option (list R)) (K : list R)
  (C : list coeff) (i : nat) :
  (i + 1 < length x)%nat ->
  interval_step x y s delta (K, C) i =
  if Req_dec_T ((nth i s 0 + nth (i + 1) s 0) / 2) (secant x y i) then
    Ok (K ++ [nth i x 0], C ++ [single_coeff x y s i])
  else
    match delta with
    | None => Raise UnboundLocalError
    | Some dl =>
        di <- getitem dl i ;;
        Ok ((K ++ [nth i x 0]) ++ [knot_of x s i di],
            (C ++ [fst (pair_of x y s i di)]) ++ [snd (pair_of x y s i di)])
    end.
Proof.
  intros Hi. unfold interval_step.
  rewrite (getitem_nth x i 0) by lia.
  rewrite (getitem_nth s i 0) by lia.
  rewrite (getitem_nth s (i + 1) 0) by lia.
  rewrite (getitem_nth y (i + 1) 0) by lia.
  rewrite (getitem_nth y i 0) by lia.
  rewrite (getitem_nth x (i + 1) 0) by lia.
  cbn [bind]. unfold secant, single_coeff.
  destruct (Req_dec_T _ _) as [E|E]; [reflexivity|].
  destruct delta as [dl|]; [|reflexivity].
  cbn [read_local bind]. destruct (getitem dl i) as [di|e]; [|reflexivity].
  cbn [bind]. unfold pair_of, knot_of.
  destruct (split_coeffs _ _ _ _ _ _ _) as [c1 c2]. reflexivity.
Qed.

End Interval.

(** ** The construction loop *)

Lemma segments_S (x y s : list R) (delta : option (list R)) (k : nat) :
  segments x y s delta (S k) =
  (st <- segments x y s delta k ;; interval_step x y s delta st k).
Proof.
  unfold segments. rewrite seq_S, for_each_app. simpl.
  destruct (for_each (seq 0 k) _ _) as [st|e]; simpl; [|reflexivity].
  destruct (interval_step x y s delta st k); reflexivity.
Qed.

Section Loop.

Variables x y s : list R.
Variable delta : option (list R).
Hypothesis Hy : length y = length x.
Hypothesis Hs : length s = length x.
Hypothesis Hx : strictly_increasing x.

Lemma interval_step_inv (k : nat) (st st' : list R * list coeff) :
  (k + 1 < length x)%nat -> seg_inv x y k st ->
  interval_step x y s delta st k = Ok st' -> seg_inv x y (S k) st'.
Proof.
  intros Hk (Hc & Hl & Hh) E. destruct st as [K C]. simpl in Hc, Hl, Hh.
  rewrite (interval_step_eq x y s Hy Hs) in E by assumption.
  assert (Hlt : nth k x 0 < nth (k + 1) x 0).
  { replace (k + 1)%nat with (S k) by lia. apply Hx. lia. }
  replace (S k) with (k + 1)%nat by lia.
  destruct (Req_dec_T _ _) as [Eq|Ne].
  - injection E as <-. unfold seg_inv. cbn [fst snd]. repeat split.
    + apply chain_snoc with (y := nth k y 0); auto.
      apply single_coeff_right; assumption.
    + rewrite length_app. simpl. lia.
    + rewrite length_app. simpl. lia.
    + rewrite (chain_hd K C _ (nth k y 0) _ (nth (k + 1) y 0)) by assumption.
      destruct K; simpl in *; [|assumption].
      assert (k = 0)%nat by lia. subst k. reflexivity.
  - destruct delta as [dl|]; [|discriminate].
    destruct (getitem dl k) as [di|]; [|discriminate].
    cbn [bind] in E.
    pose proof (new_knot_inside (nth k x 0) (nth (k + 1) x 0) (nth k s 0)
                  (nth (k + 1) s 0) di Hlt) as Hin.
    fold (knot_of x s k di) in Hin.
    pose proof (split_coeffs_left (nth k x 0) (nth (k + 1) x 0) (nth k y 0)
                  (nth (k + 1) y 0) (nth k s 0) (nth (k + 1) s 0)
                  (knot_of x s k di)) as HL.
    pose proof (split_coeffs_right (nth k x 0) (nth (k + 1) x 0) (nth k y 0)
                  (nth (k + 1) y 0) (nth k s 0) (nth (k + 1) s 0)
                  (knot_of x s k di) Hin) as HR.
    fold (pair_of x y s k di) in HL, HR.
    destruct (pair_of x y s k di) as [c1 c2]. cbn [fst snd] in *.
    destruct HL as [HA HB]. injection E as <-.
    unfold seg_inv. cbn [fst snd]. repeat split.
    + apply chain_snoc with (y := coeff_A c2); try tauto.
      apply chain_snoc with (y := nth k y 0); auto. tauto.
    + rewrite !length_app. simpl. lia.
    + rewrite !length_app. simpl. lia.
    + rewrite <- app_assoc.
      destruct K; simpl in *; [|assumption].
      assert (k = 0)%nat by lia. subst k. reflexivity.
Qed.

Lemma segments_inv (k : nat) (st : list R * list coeff) :
  (k < length x)%nat -> segments x y s delta k = Ok st -> seg_inv x y k st.
Proof.
  revert st. induction k as [|k IH]; intros st Hk E.
  - unfold segments in E. simpl in E. injection E as <-.
    unfold seg_inv. simpl. repeat split; lia.
  - rewrite segments_S in E.
    destruct (segments x y s delta k) as [st0|e] eqn:E0; [|discriminate].
    cbn [bind] in E.
    apply (interval_step_inv k st0 st); [lia| |assumption].
    apply IH; [lia | reflexivity].
Qed.

Lemma segments_outcome (k : nat) :
  (k < length x)%nat ->
  match delta with Some dl => length dl = (length x - 1)%nat | None => True end ->
  (exists st, segments x y s delta k = Ok st) \/
  (delta = None /\ segments x y s delta k = Raise UnboundLocalError).
Proof.
  intros Hk Hd. induction k as [|k IH].
  - left. exists ([], []). reflexivity.
  - rewrite segments_S. destruct IH as [[st E]|[Dn E]]; [lia| |].
    + rewrite E. cbn [bind]. destruct st as [K C].
      rewrite (interval_step_eq x y s Hy Hs) by lia.
      destruct (Req_dec_T _ _); [left; eexists; reflexivity|].
      destruct delta as [dl|].
      * rewrite (getitem_nth dl k 0) by lia. left. eexists. reflexivity.
      * right. split; reflexivity.
    + right. split; [assumption|]. rewrite E. reflexivity.
Qed.

End Loop.

(** ** Slope estimation *)

Lemma length_secants (x y : list R) :
  length y = length x -> length (secants x y) = (length x - 1)%nat.
Proof.
  intros H. unfold secants. rewrite length_map2, !length_diff, H. lia.
Qed.

Lemma length_chord_lengths (x y : list R) :
  length y = length x -> length (chord_lengths x y) = (length x - 1)%nat.
Proof.
  intros H. unfold chord_lengths. rewrite length_map2, !length_diff, H. lia.
Qed.

Lemma nth_secants (x y : list R) (i : nat) :
  length y = length x -> (i + 1 < length x)%nat ->
  nth i (secants x y) 0 = secant x y i.
Proof.
  intros H Hi. unfold secants, secant.
  rewrite nth_map2 by (rewrite length_diff; lia).
  rewrite !nth_diff by lia. replace (i + 1)%nat with (S i) by lia. reflexivity.
Qed.

Lemma nth_chord_lengths (x y : list R) (i : nat) :
  length y = length x -> (i + 1 < length x)%nat ->
  nth i (chord_lengths x y) 0 = chord x y i.
Proof.
  intros H Hi. unfold chord_lengths, chord.
  rewrite nth_map2 by (rewrite length_diff; lia).
  rewrite !nth_diff by lia. replace (i + 1)%nat with (S i) by lia. reflexivity.
Qed.

Lemma chord_pos (x y : list R) (i : nat) :
  strictly_increasing x -> (i + 1 < length x)%nat -> 0 < chord x y i.
Proof.
  intros Hx Hi. unfold chord. apply sqrt_lt_R0.
  assert (H : nth i x 0 < nth (i + 1) x 0).
  { replace (i + 1)%nat with (S i) by lia. apply Hx. lia. }
  pose proof (pow2_ge_0 (nth (i + 1) y 0 - nth i y 0)).
  assert (0 < (nth (i + 1) x 0 - nth i x 0) ^ 2) by (apply pow_lt; lra).
  lra.
Qed.

Lemma nth_repeat_0 (n j : nat) : nth j (repeat 0 n) 0 = 0.
Proof.
  revert j; induction n as [|n IH]; intros [|j]; simpl; auto.
Qed.

Section Slopes.

Variables x y : list R.
Hypothesis Hy : length y = length x.

Lemma slope_step_eq (s : list R) (i : nat) :
  (1 <= i)%nat -> (i + 1 < length x)%nat -> length s = length x ->
  slope_step (chord_lengths x y) (secants x y) s i
  = Ok (update s i (interior_slope x y i)).
Proof.
  intros H1 H2 Hs. unfold slope_step.
  pose proof (length_secants x y Hy) as LS.
  pose proof (length_chord_lengths x y Hy) as LC.
  rewrite (getitem_nth (secants x y) (i - 1) 0) by lia.
  rewrite (getitem_nth (secants x y) i 0) by lia.
  cbn [bind].
  rewrite !nth_secants by (auto; lia).
  unfold interior_slope.
  destruct (Rlt_dec _ _).
  - rewrite (getitem_nth (chord_lengths x y) (i - 1) 0) by lia.
    rewrite (getitem_nth (chord_lengths x y) i 0) by lia.
    cbn [bind]. rewrite !nth_chord_lengths by (auto; lia).
    apply setitem_in. lia.
  - apply setitem_in. lia.
Qed.

Lemma interior_loop_spec (m : nat) :
  (m + 2 <= length x)%nat ->
  exists s, interior_loop x y m = Ok s /\ length s = length x /\
    forall j, nth j s 0 =
      if ((1 <=? j) && (j <=? m))%nat then interior_slope x y j else 0.
Proof.
  induction m as [|m IH]; intros Hm.
  - exists (repeat 0 (length x)). split; [reflexivity|].
    split; [apply repeat_length|].
    intros j. rewrite nth_repeat_0.
    destruct j; reflexivity.
  - destruct IH as (s & E & Ls & Hn); [lia|].
    unfold interior_loop in *. rewrite seq_S, for_each_app, E.
    cbn [bind for_each Nat.add].
    rewrite slope_step_eq by (try lia; auto).
    cbn [bind].
    exists (update s (S m) (interior_slope x y (S m))).
    split; [reflexivity|]. split; [rewrite length_update; assumption|].
    intros j. destruct (Nat.eq_dec (S m) j) as [<-|Hne].
    + rewrite nth_update_eq by lia.
      replace (S m <=? S m)%nat with true by (symmetry; apply Nat.leb_le; lia).
      reflexivity.
    + rewrite nth_update_neq by assumption. rewrite Hn.
      destruct (Nat.leb_spec 1 j); cbn [andb]; [|reflexivity].
      destruct (Nat.leb_spec j m); destruct (Nat.leb_spec j (S m));
        try reflexivity; lia.
Qed.

(** The estimated slopes, as one expression. *)
Lemma estimate_slopes_eq :
  (2 <= length x)%nat ->
  exists s0, interior_loop x y (length x - 2) = Ok s0 /\
    let s1 := update s0 0 ((3 * secant x y 0 - nth 1 s0 0) / 2) in
    estimate_slopes x y =
    Ok (update s1 (length x - 1)
          ((3 * secant x y (length x - 2) - nth (length x - 2) s1 0) / 2)).
Proof.
  intros Hn. destruct (interior_loop_spec (length x - 2)) as (s0 & E & Ls & Hj).
  { lia. }
  exists s0. split; [assumption|]. cbn zeta.
  unfold estimate_slopes. unfold interior_loop in E. rewrite E. cbn [bind].
  pose proof (length_secants x y Hy) as LS.
  rewrite (getitem_nth (secants x y) 0 0) by lia.
  rewrite (getitem_nth s0 1 0) by lia. cbn [bind].
  rewrite setitem_in by lia. cbn [bind].
  rewrite (getitem_nth (secants x y) (length x - 2) 0) by lia.
  rewrite (getitem_nth (update s0 0 _) (length x - 2) 0)
    by (rewrite length_update; lia).
  cbn [bind]. rewrite setitem_in by (rewrite length_update; lia).
  rewrite !nth_secants by (auto; lia). reflexivity.
Qed.

Lemma estimate_slopes_total :
  (2 <= length x)%nat ->
  exists s, estimate_slopes x y = Ok s /\ length s = length x.
Proof.
  intros Hn. destruct (estimate_slopes_eq Hn) as (s0 & E & Es).
  destruct (interior_loop_spec (length x - 2)) as (s0' & E' & Ls & _); [lia|].
  rewrite E in E'. injection E' as <-.
  eexists. split; [exact Es|]. rewrite !length_update. assumption.
Qed.

End Slopes.

(** ** Which exceptions can be raised *)

Lemma not_assertion_bind {A B : Type} (c : result A) (k : A -> result B) :
  not_assertion c -> (forall a, not_assertion (k a)) -> not_assertion (bind c k).
Proof.
  destruct c as [a|e]; simpl; auto.
Qed.

Lemma not_assertion_getitem {A : Type} (l : list A) (i : nat) :
  not_assertion (getitem l i).
Proof. unfold getitem. destruct (nth_error l i); exact I. Qed.

Lemma not_assertion_setitem (l : list R) (i : nat) (v : R) :
  not_assertion (setitem l i v).
Proof. unfold setitem. destruct (i <? length l)%nat; exact I. Qed.

Lemma not_assertion_for_each {S : Type} (idx : list nat)
  (body : S -> nat -> result S) (st : S) :
  (forall st i, not_assertion (body st i)) ->
  not_assertion (for_each idx body st).
Proof.
  intros H. revert st. induction idx as [|i idx IH]; intros st; simpl.
  - exact I.
  - apply not_assertion_bind; auto.
Qed.

Ltac no_assert :=
  repeat first
    [ exact I
    | apply not_assertion_getitem
    | apply not_assertion_setitem
    | apply not_assertion_bind; [|intros ?]
    | match goal with
      | |- not_assertion (if ?c then _ else _) => destruct c
      | |- not_assertion (let '(_, _) := ?p in _) => destruct p
      | |- not_assertion (match ?p with _ => _ end) => destruct p
      end ].

Lemma not_assertion_slope_step (L delta s : list R) (i : nat) :
  not_assertion (slope_step L delta s i).
Proof. unfold slope_step. no_assert. Qed.

Lemma not_assertion_estimate (x y : list R) :
  not_assertion (estimate_slopes x y).
Proof.
  unfold estimate_slopes. cbn zeta.
  apply not_assertion_bind;
    [apply not_assertion_for_each; intros; apply not_assertion_slope_step|].
  intros ?. no_assert.
Qed.

Lemma not_assertion_interval_step (x y s : list R) (delta : option (list R))
  (st : list R * list coeff) (i : nat) :
  not_assertion (interval_step x y s delta st i).
Proof.
  unfold interval_step. destruct st as [K C]. unfold read_local. no_assert.
Qed.

Lemma not_assertion_piece_step (K : list R) (C : list coeff)
  (P : list piece) (i : nat) :
  not_assertion (piece_step K C P i).
Proof. unfold piece_step. no_assert. Qed.

(** ** The routine after validation *)

Lemma build_wellformed (x y : list R) (s : option (list R)) :
  ~ malformed x y s -> build x y s = construct x y s.
Proof.
  intros H. unfold build.
  assert (H1 : length y = length x).
  { destruct (Nat.eq_dec (length y) (length x)); [assumption|].
    exfalso. apply H. left. assumption. }
  assert (H2 : all_positive (diff x) = true).
  { destruct (all_positive (diff x)) eqn:E; [reflexivity|].
    exfalso. apply H. right. left. intros Hx.
    apply all_positive_diff in Hx. congruence. }
  assert (H3 : match s with
               | Some sl => assert (length sl =? length x)%nat
                              "s must have the same length as x and y"
               | None => Ok tt
               end = Ok tt).
  { destruct s as [sl|]; [|reflexivity].
    destruct (Nat.eqb_spec (length sl) (length x)); [reflexivity|].
    exfalso. apply H. right. right. exists sl. split; auto. }
  cbn zeta. rewrite H3.
  apply Nat.eqb_eq in H1. rewrite H1, H2. cbn [assert bind].
  unfold construct, slopes_of, segments. reflexivity.
Qed.

Lemma build_malformed (x y : list R) (s : option (list R)) :
  malformed x y s -> exists msg, build x y s = Raise (AssertionError msg).
Proof.
  intros H. unfold build. cbn zeta.
  destruct (Nat.eqb_spec (length y) (length x)) as [E1|E1];
    [|eexists; reflexivity].
  destruct (all_positive (diff x)) eqn:E2; [|eexists; reflexivity].
  cbn [assert bind].
  destruct H as [H|[H|(sl & -> & H)]].
  - contradiction.
  - exfalso. apply H. apply all_positive_diff. assumption.
  - destruct (Nat.eqb_spec (length sl) (length x)); [contradiction|].
    eexists. reflexivity.
Qed.

Lemma not_assertion_construct (x y : list R) (s : option (list R)) :
  not_assertion (construct x y s).
Proof.
  unfold construct. apply not_assertion_bind.
  - destruct s; simpl; [exact I|].
    apply not_assertion_bind; [apply not_assertion_estimate|]. intros; exact I.
  - intros [sl delta]. apply not_assertion_bind.
    + apply not_assertion_for_each. intros. apply not_assertion_interval_step.
    + intros [K C]. no_assert.
Qed.

Lemma valid_not_malformed (x y : list R) (s : option (list R)) :
  valid_input x y s -> ~ malformed x y s.
Proof.
  intros (H1 & H2 & H3 & H4) [H|[H|(sl & -> & H)]]; auto.
Qed.

Lemma construct_valid (x y : list R) (s : option (list R)) :
  valid_input x y s ->
  (exists K C,
      construct x y s = Ok (K ++ [nth (length x - 1) x 0], C) /\
      seg_inv x y (length x - 1) (K, C)) \/
  (s <> None /\ construct x y s = Raise UnboundLocalError).
Proof.
  intros (Hy & Hn & Hx & Hs). unfold construct.
  assert (Hseg : forall sl delta,
    length sl = length x ->
    match delta with Some dl => length dl = (length x - 1)%nat | None => True end ->
    (exists K C,
      ('(knots, coeffs) <- segments x y sl delta (length x - 1) ;;
       xl <- getitem x (length x - 1) ;; Ok (knots ++ [xl], coeffs))
      = Ok (K ++ [nth (length x - 1) x 0], C) /\
      seg_inv x y (length x - 1) (K, C)) \/
    (delta = None /\
      ('(knots, coeffs) <- segments x y sl delta (length x - 1) ;;
       xl <- getitem x (length x - 1) ;; Ok (knots ++ [xl], coeffs))
      = Raise UnboundLocalError)).
  { intros sl delta Hl Hd.
    destruct (segments_outcome x y sl delta Hy Hl (length x - 1))
      as [[[K C] E]|[Dn E]]; [lia|assumption| |].
    - left. exists K, C. rewrite E. cbn [bind].
      rewrite (getitem_nth x (length x - 1) 0) by lia. split; [reflexivity|].
      apply (segments_inv x y sl delta Hy Hl Hx); [lia|assumption].
    - right. split; [assumption|]. rewrite E. reflexivity. }
  destruct s as [sl|]; cbn [slopes_of bind].
  - destruct (Hseg sl None Hs I) as [H|[_ H]]; [left; assumption|].
    right. split; [discriminate|assumption].
  - destruct (estimate_slopes_total x y Hy Hn) as (sl & E & Hl).
    rewrite E. cbn [bind].
    destruct (Hseg sl (Some (secants x y)) Hl (length_secants x y Hy))
      as [H|[H _]]; [left; assumption|discriminate].
Qed.

Lemma schumaker_coeffs (x y : list R) (s : option (list R)) :
  schumaker_spline x y s "coeffs" =
  ('(knots, coeffs) <- build x y s ;; Ok (OutCoeffs knots coeffs)).
Proof. reflexivity. Qed.

(** Outcome of the routine on a well-formed input, in coefficient mode. *)
Lemma schumaker_valid (x y : list R) (s : option (list R)) :
  valid_input x y s ->
  (exists K C,
      schumaker_spline x y s "coeffs"
      = Ok (OutCoeffs (K ++ [nth (length x - 1) x 0]) C) /\
      build x y s = Ok (K ++ [nth (length x - 1) x 0], C) /\
      seg_inv x y (length x - 1) (K, C)) \/
  (s <> None /\ schumaker_spline x y s "coeffs" = Raise UnboundLocalError).
Proof.
  intros H. rewrite schumaker_coeffs.
  rewrite (build_wellformed x y s (valid_not_malformed x y s H)).
  destruct (construct_valid x y s H) as [(K & C & E & Hi)|[Hs E]].
  - left. exists K, C. rewrite E. auto.
  - right. rewrite E. auto.
Qed.

Lemma schumaker_coeffs_inv (x y : list R) (s : option (list R))
  (K : list R) (C : list coeff) :
  valid_input x y s ->
  schumaker_spline x y s "coeffs" = Ok (OutCoeffs K C) ->
  exists K0, K = K0 ++ [nth (length x - 1) x 0] /\
             build x y s = Ok (K, C) /\
             seg_inv x y (length x - 1) (K0, C).
Proof.
  intros H E. destruct (schumaker_valid x y s H) as [(K0 & C0 & E0 & B & Hi)|[_ E0]].
  - rewrite E0 in E. injection E as <- <-. exists K0. auto.
  - rewrite E0 in E. discriminate.
Qed.

(** * Properties of the routine *)

Ltac valid_tac :=
  unfold valid_input; repeat split; try reflexivity; try (simpl; lia);
  try (intros i Hi; simpl in Hi;
       repeat (destruct i as [|i]; [simpl; lra|]); simpl in Hi; lia).

(** ** Shape of the knot sequence *)

(** In exact arithmetic: on every well-formed input of n points the
    returned knots are strictly increasing, there are between n and 2n-1 of
    them, the first is x[0] and the last is x[n-1], and the coefficient
    table has one entry less than there are knots.  With estimated slopes
    the routine does return. *)
Lemma knots_shape_exact (x y : list R) (s : option (list R)) :
  valid_input x y s ->
  (s = None ->
   exists K C, schumaker_spline x y s "coeffs" = Ok (OutCoeffs K C)) /\
  (forall K C,
     schumaker_spline x y s "coeffs" = Ok (OutCoeffs K C) ->
     strictly_increasing K /\
     (length x <= length K <= 2 * length x - 1)%nat /\
     nth 0 K 0 = nth 0 x 0 /\
     nth (length K - 1) K 0 = nth (length x - 1) x 0 /\
     length C = (length K - 1)%nat).
Proof.
  intros H. split.
  - intros ->. destruct (schumaker_valid x y None H) as [(K & C & E & _)|[N _]].
    + eauto.
    + contradiction.
  - intros K C E.
    destruct (schumaker_coeffs_inv x y s K C H E) as (K0 & -> & _ & Hc & Hl & Hh).
    cbn [fst snd] in *. destruct H as (_ & Hn & _ & _).
    rewrite length_app. cbn [length].
    repeat split.
    + eapply chain_increasing. eassumption.
    + lia.
    + lia.
    + destruct K0 as [|t K0]; [simpl in Hl; lia|]. simpl in *. assumption.
    + replace (length K0 + 1 - 1)%nat with (length K0) by lia.
      apply nth_middle.
    + rewrite (chain_length _ _ _ _ Hc). lia.
Qed.

(** ** Continuity *)

(** C2: on every well-formed input the returned piecewise quadratic is
    continuous: at each internal knot [K[j]] the quadratic of the
    sub-interval that ends there takes the value [A] of the sub-interval
    that starts there.  With estimated slopes the routine does return. *)
Theorem spline_continuous (x y : list R) (s : option (list R)) :
  valid_input x y s ->
  (s = None ->
   exists K C, schumaker_spline x y s "coeffs" = Ok (OutCoeffs K C)) /\
  (forall K C,
     schumaker_spline x y s "coeffs" = Ok (OutCoeffs K C) ->
     forall j, (1 <= j)%nat -> (j + 1 < length K)%nat ->
       quad_eval (nth (j - 1) C zero_coeff) (nth (j - 1) K 0) (nth j K 0)
       = coeff_A (nth j C zero_coeff)).
Proof.
  intros H. split.
  - intros ->. destruct (schumaker_valid x y None H) as [(K & C & E & _)|[N _]].
    + eauto.
    + contradiction.
  - intros K C E j Hj1 Hj2.
    destruct (schumaker_coeffs_inv x y s K C H E) as (K0 & -> & _ & Hc & _).
    cbn [fst snd] in Hc. rewrite length_app in Hj2. cbn [length] in Hj2.
    destruct j as [|j]; [lia|].
    replace (S j - 1)%nat with j by lia.
    apply (chain_continuous K0 C _ _ Hc j). lia.
Qed.

Lemma spline_continuous_witness :
  valid_input [0; 1; 3] [0; 1; 2] None /\
  exists K C,
    schumaker_spline [0; 1; 3] [0; 1; 2] None "coeffs" = Ok (OutCoeffs K C) /\
    forall j, (1 <= j)%nat -> (j + 1 < length K)%nat ->
      quad_eval (nth (j - 1) C zero_coeff) (nth (j - 1) K 0) (nth j K 0)
      = coeff_A (nth j C zero_coeff).
Proof.
  split; [valid_tac|].
  destruct (spline_continuous [0; 1; 3] [0; 1; 2] None) as [Hex Hall];
    [valid_tac|].
  destruct (Hex eq_refl) as (K & C & E).
  exists K, C. split; [exact E|]. exact (Hall K C E).
Defined.

(** ** Well-defined divisions *)

(** C10: on an interval [x[i] < x[i+1]], whenever the midpoint branch is not
    taken the two slopes differ, so the divisor [s[i+1] - s[i]] is not zero;
    and the inserted knot [e] lies strictly inside the interval, so that
    [alpha = e - x[i]] and [beta = x[i+1] - e] are positive and the divisors
    [2 alpha] and [2 beta] are not zero. *)
Theorem inserted_knot_well_defined (xi xi1 si si1 di : R) :
  xi < xi1 ->
  (~ (si - di) * (si1 - di) >= 0 -> si1 - si <> 0) /\
  let e := new_knot xi xi1 si si1 di in
  xi < e < xi1 /\ 0 < e - xi /\ 0 < xi1 - e /\
  2 * (e - xi) <> 0 /\ 2 * (xi1 - e) <> 0.
Proof.
  intros Hx. split.
  - intros Hm E. apply Hm. replace si1 with si by lra.
    apply Rle_ge. apply Rle_0_sqr.
  - cbn zeta. pose proof (new_knot_inside xi xi1 si si1 di Hx). lra.
Qed.

Lemma inserted_knot_well_defined_witness :
  0 < 1 /\ 0 < new_knot 0 1 (3 / 2) (3 / 4) 1 < 1.
Proof.
  split; [lra|].
  apply (inserted_knot_well_defined 0 1 (3 / 2) (3 / 4) 1). lra.
Defined.

(** ** Symbolic export *)

Lemma pieces_loop (K : list R) (C : list coeff) (m : nat) :
  (m + 1 <= length K)%nat -> (m <= length C)%nat ->
  for_each (seq 0 m) (piece_step K C) [] = Ok (map (piece_at K C) (seq 0 m)).
Proof.
  intros HK HC. induction m as [|m IH]; [reflexivity|].
  rewrite seq_S, for_each_app, IH by lia.
  cbn [bind for_each Nat.add]. unfold piece_step.
  rewrite (getitem_nth K m 0) by lia.
  rewrite (getitem_nth C m zero_coeff) by lia.
  rewrite (getitem_nth K (m + 1) 0) by lia.
  cbn [bind]. rewrite map_app. cbn [map]. unfold piece_at.
  destruct (nth m C zero_coeff) as [[a b] c]. reflexivity.
Qed.

Lemma schumaker_sympy (x y : list R) (s : option (list R)) :
  schumaker_spline x y s "sympy" =
  ('(knots, coeffs) <- build x y s ;;
   pieces <- for_each (seq 0 (length knots - 1)) (piece_step knots coeffs) [] ;;
   Piecewise pieces).
Proof. reflexivity. Qed.

Lemma expr_eval_quadratic (a b c t v : R) :
  expr_eval (quadratic a b c t) v = a + b * (v - t) + c * (v - t) ^ 2.
Proof. reflexivity. Qed.

Lemma cond_holds_condition (t t' v : R) :
  cond_holds (condition t t') v <-> t <= v <= t'.
Proof. simpl. split; intros [H1 H2]; split; lra. Qed.



(** ** Validation *)

Lemma strictly_increasing_dec (x : list R) :
  {strictly_increasing x} + {~ strictly_increasing x}.
Proof.
  destruct (all_positive (diff x)) eqn:E.
  - left. apply all_positive_diff. assumption.
  - right. intros H. apply all_positive_diff in H. congruence.
Qed.

Lemma malformed_dec (x y : list R) (s : option (list R)) :
  malformed x y s \/ ~ malformed x y s.
Proof.
  unfold malformed.
  destruct (Nat.eq_dec (length y) (length x)) as [E1|E1]; [|tauto].
  destruct (strictly_increasing_dec x) as [E2|E2]; [|tauto].
  destruct s as [sl|].
  - destruct (Nat.eq_dec (length sl) (length x)) as [E3|E3].
    + right. intros [H|[H|(sl' & Hs & H)]]; try contradiction.
      injection Hs as <-. contradiction.
    + left. right. right. exists sl. auto.
  - right. intros [H|[H|(sl' & Hs & H)]]; try contradiction. discriminate.
Qed.

(** C7, as the code has it: the routine fails validation (an assertion
    fails) exactly when x and y differ in length, or x is not strictly
    increasing, or a supplied slope sequence differs in length from x.
    The number of points is not checked. *)
Theorem validation_failure (x y : list R) (s : option (list R))
  (return_type : string) :
  (exists msg,
     schumaker_spline x y s return_type = Raise (AssertionError msg))
  <-> malformed x y s.
Proof.
  split.
  - intros (msg & E). destruct (malformed_dec x y s) as [M|M]; [assumption|].
    exfalso. unfold schumaker_spline in E.
    rewrite (build_wellformed x y s M) in E.
    assert (N : not_assertion
                  (Raise (AssertionError msg) : result output)).
    { rewrite <- E. apply not_assertion_bind.
      - apply not_assertion_construct.
      - intros [K C]. destruct (String.eqb return_type "coeffs"); [exact I|].
        destruct (String.eqb return_type "sympy"); [|exact I].
        apply not_assertion_bind.
        + apply not_assertion_for_each. intros. apply not_assertion_piece_step.
        + intros P. destruct P; exact I. }
    exact N.
  - intros M. destruct (build_malformed x y s M) as (msg & E).
    exists msg. unfold schumaker_spline. rewrite E. reflexivity.
Qed.

(** C7 fails as stated: with a single point and a supplied slope nothing is
    rejected and a result is returned; with a single point and no slopes the
    failure is an [IndexError], not a validation failure. *)
Lemma single_point_not_rejected :
  (length [5] < 2)%nat /\
  schumaker_spline [5] [7] (Some [1]) "coeffs" = Ok (OutCoeffs [5] []) /\
  schumaker_spline [5] [7] None "coeffs" = Raise IndexError.
Proof.
  split; [simpl; lia|]. split; reflexivity.
Qed.

(** ** The estimated slopes *)

(** C5, as the code has it: the estimated slopes have length n; every
    interior slope follows the blend-or-zero rule; the last slope is
    [(3 delta[n-2] - s[n-2]) / 2]; and the first slope is
    [(3 delta[0] - s[1]) / 2] when there are at least three points. *)
Theorem estimated_slopes_rule (x y : list R) :
  valid_input x y None ->
  exists s,
    estimate_slopes x y = Ok s /\
    length s = length x /\
    (forall i, (1 <= i <= length x - 2)%nat ->
       (secant x y (i - 1) * secant x y i > 0 ->
        nth i s 0 =
        (chord x y (i - 1) * secant x y (i - 1) + chord x y i * secant x y i)
        / (chord x y (i - 1) + chord x y i)) /\
       (~ secant x y (i - 1) * secant x y i > 0 -> nth i s 0 = 0)) /\
    nth (length x - 1) s 0
    = (3 * secant x y (length x - 2) - nth (length x - 2) s 0) / 2 /\
    ((3 <= length x)%nat -> nth 0 s 0 = (3 * secant x y 0 - nth 1 s 0) / 2).
Proof.
  intros (Hy & Hn & _ & _).
  destruct (estimate_slopes_eq x y Hy Hn) as (s0 & E0 & E). cbn zeta in E.
  destruct (interior_loop_spec x y Hy (length x - 2)) as (s0' & E0' & Ls & Hj);
    [lia|].
  rewrite E0 in E0'. injection E0' as <-.
  eexists. split; [exact E|].
  set (v0 := (3 * secant x y 0 - nth 1 s0 0) / 2) in *.
  set (s1 := update s0 0 v0) in *.
  assert (L1 : length s1 = length x) by (unfold s1; rewrite length_update; auto).
  split; [rewrite length_update; assumption|].
  split; [|split].
  - intros i Hi.
    assert (Ei : nth i (update s1 (length x - 1)
                   ((3 * secant x y (length x - 2) - nth (length x - 2) s1 0) / 2)) 0
                 = interior_slope x y i).
    { rewrite nth_update_neq by lia. unfold s1.
      rewrite nth_update_neq by lia. rewrite Hj.
      replace (1 <=? i)%nat with true by (symmetry; apply Nat.leb_le; lia).
      replace (i <=? length x - 2)%nat with true
        by (symmetry; apply Nat.leb_le; lia).
      reflexivity. }
    rewrite Ei. unfold interior_slope.
    destruct (Rlt_dec _ _) as [Hp|Hp]; split; intros Hq;
      try reflexivity; unfold Rgt in Hq; contradiction.
  - rewrite nth_update_eq by lia.
    rewrite nth_update_neq by lia. reflexivity.
  - intros H3. rewrite !nth_update_neq by lia. unfold s1.
    rewrite nth_update_eq by lia. rewrite nth_update_neq by lia. reflexivity.
Qed.

Lemma estimated_slopes_rule_witness :
  valid_input [0; 1; 3] [0; 1; 2] None /\
  exists s, estimate_slopes [0; 1; 3] [0; 1; 2] = Ok s /\ length s = 3%nat.
Proof.
  split; [valid_tac|].
  destruct (estimated_slopes_rule [0; 1; 3] [0; 1; 2]) as (s & E & L & _);
    [valid_tac|].
  exists s. split; [exact E | exact L].
Defined.

(** C5 fails as stated for two points: line 37 reads s[1] while it is still
    zero and line 38 then assigns it, so the first slope is not
    [(3 delta[0] - s[1]) / 2] of the returned sequence. *)
Lemma two_points_left_slope :
  estimate_slopes [0; 1] [0; 1] = Ok [3 / 2; 3 / 4] /\
  nth 0 [3 / 2; 3 / 4] 0
  <> (3 * secant [0; 1] [0; 1] 0 - nth 1 [3 / 2; 3 / 4] 0) / 2.
Proof.
  split.
  - unfold estimate_slopes, secants, chord_lengths.
    cbn [length diff map2 Nat.sub seq for_each repeat bind getitem nth_error
         setitem Nat.ltb Nat.leb update].
    f_equal. f_equal; [lra|]. f_equal. lra.
  - unfold secant. simpl. lra.
Qed.

(** * Concrete runs *)

Ltac rdec :=
  repeat match goal with
  | |- context [Rcase_abs ?a] =>
      destruct (Rcase_abs a); [try (exfalso; lra) | try (exfalso; lra)]
  | |- context [Rlt_dec ?a ?b] =>
      destruct (Rlt_dec a b); [try (exfalso; lra) | try (exfalso; lra)]
  | |- context [Rge_dec ?a ?b] =>
      destruct (Rge_dec a b); [try (exfalso; lra) | try (exfalso; lra)]
  | |- context [Req_dec_T ?a ?b] =>
      destruct (Req_dec_T a b); [try (exfalso; lra) | try (exfalso; lra)]
  end.

Ltac run :=
  cbn [length diff map2 Nat.eqb assert bind all_positive forallb andb Nat.sub
       seq for_each repeat getitem nth_error setitem Nat.ltb Nat.leb update
       Nat.add read_local app fst snd].

(** ** Supplied slopes and the unbound secant array *)

Lemma segments_supplied_tests (x y sl : list R) (k : nat)
  (st : list R * list coeff) :
  length y = length x -> length sl = length x -> (k < length x)%nat ->
  segments x y sl None k = Ok st ->
  forall i, (i < k)%nat ->
    (nth i sl 0 + nth (i + 1) sl 0) / 2 = secant x y i.
Proof.
  intros Hy Hs. revert st. induction k as [|k IH]; intros st Hk E i Hi; [lia|].
  rewrite segments_S in E.
  destruct (segments x y sl None k) as [[K C]|e] eqn:E0; [|discriminate].
  cbn [bind] in E. rewrite (interval_step_eq x y sl Hy Hs) in E by lia.
  destruct (Req_dec_T _ _) as [Eq|Ne]; [|discriminate].
  destruct (Nat.eq_dec i k) as [->|Hne]; [assumption|].
  apply (IH (K, C)); [lia | reflexivity | lia].
Qed.

(** With supplied slopes, every well-formed input on which some interval
    fails the test of line 46 makes the routine raise. *)
Lemma supplied_subdivision_raises (x y sl : list R) (i : nat) :
  valid_input x y (Some sl) -> (i + 1 < length x)%nat ->
  (nth i sl 0 + nth (i + 1) sl 0) / 2 <> secant x y i ->
  schumaker_spline x y (Some sl) "coeffs" = Raise UnboundLocalError.
Proof.
  intros H Hi Hne.
  destruct (schumaker_valid x y (Some sl) H) as [(K & C & _ & B & _)|[_ E]];
    [|assumption].
  exfalso. apply Hne.
  rewrite (build_wellformed _ _ _ (valid_not_malformed _ _ _ H)) in B.
  unfold construct in B. cbn [slopes_of bind] in B.
  destruct H as (Hy & Hn & Hx & Hs).
  destruct (segments x y sl None (length x - 1)) as [st|e] eqn:E;
    [|discriminate].
  apply (segments_supplied_tests x y sl (length x - 1) st Hy Hs); try lia.
  assumption.
Qed.

(** C1 fails on the code: on the well-formed input x = [0, 1], y = [0, 1],
    s = [0, 0] the interval needs subdivision and the routine raises
    [UnboundLocalError] instead of returning knots and coefficients. *)
Theorem supplied_slopes_raise :
  valid_input [0; 1] [0; 1] (Some [0; 0]) /\
  (nth 0 [0; 0] 0 + nth 1 [0; 0] 0) / 2 <> secant [0; 1] [0; 1] 0 /\
  schumaker_spline [0; 1] [0; 1] (Some [0; 0]) "coeffs"
  = Raise UnboundLocalError.
Proof.
  assert (V : valid_input [0; 1] [0; 1] (Some [0; 0])) by valid_tac.
  assert (N : (nth 0 [0; 0] 0 + nth 1 [0; 0] 0) / 2 <> secant [0; 1] [0; 1] 0).
  { unfold secant. simpl. lra. }
  split; [exact V|]. split; [exact N|].
  apply (supplied_subdivision_raises [0; 1] [0; 1] [0; 0] 0 V); [simpl; lia|].
  exact N.
Qed.

(** ** The per-interval rule *)

(** With estimated slopes the interval rule is the one of the
    specification: one knot and one triple when the mean of the two slopes
    is the secant, else two knots and two triples around [new_knot]. *)
Lemma interval_rule_estimated (x y s : list R) (K : list R) (C : list coeff)
  (i : nat) :
  length y = length x -> length s = length x -> (i + 1 < length x)%nat ->
  interval_step x y s (Some (secants x y)) (K, C) i =
  if Req_dec_T ((nth i s 0 + nth (i + 1) s 0) / 2) (secant x y i) then
    Ok (K ++ [nth i x 0],
        C ++ [(nth i y 0, nth i s 0,
               (nth (i + 1) s 0 - nth i s 0)
               / (2 * (nth (i + 1) x 0 - nth i x 0)))])
  else
    Ok ((K ++ [nth i x 0]) ++ [knot_of x s i (secant x y i)],
        (C ++ [fst (pair_of x y s i (secant x y i))])
        ++ [snd (pair_of x y s i (secant x y i))]).
Proof.
  intros Hy Hs Hi. rewrite (interval_step_eq x y s Hy Hs) by assumption.
  destruct (Req_dec_T _ _); [reflexivity|].
  rewrite (getitem_nth (secants x y) i 0)
    by (rewrite length_secants by assumption; lia).
  cbn [bind]. rewrite nth_secants by assumption. reflexivity.
Qed.

Lemma new_knot_midpoint_first (xi xi1 si si1 di : R) :
  (si - di) * (si1 - di) >= 0 -> new_knot xi xi1 si si1 di = (xi + xi1) / 2.
Proof.
  intros H. unfold new_knot. destruct (Rge_dec _ _); [reflexivity|contradiction].
Qed.

Lemma new_knot_right_closer (xi xi1 si si1 di : R) :
  ~ (si - di) * (si1 - di) >= 0 -> Rabs (si1 - di) < Rabs (si - di) ->
  new_knot xi xi1 si si1 di
  = (xi + (xi + 2 * (xi1 - xi) * (si1 - di) / (si1 - si))) / 2.
Proof.
  intros H1 H2. unfold new_knot.
  destruct (Rge_dec _ _); [contradiction|].
  destruct (Rlt_dec _ _); [reflexivity|contradiction].
Qed.

Lemma new_knot_left_closer (xi xi1 si si1 di : R) :
  ~ (si - di) * (si1 - di) >= 0 -> ~ Rabs (si1 - di) < Rabs (si - di) ->
  new_knot xi xi1 si si1 di
  = (xi1 + (xi1 + 2 * (xi1 - xi) * (si - di) / (si1 - si))) / 2.
Proof.
  intros H1 H2. unfold new_knot.
  destruct (Rge_dec _ _); [contradiction|].
  destruct (Rlt_dec _ _); [contradiction|reflexivity].
Qed.

(** C6 fails on the code where the slopes are supplied: on x = [0, 1],
    y = [0, 1], s = [0, 0] the mean slope differs from the secant, and the
    loop body raises [UnboundLocalError] instead of emitting two knots and
    two triples. *)
Theorem subdivision_step_raises :
  (nth 0 [0; 0] 0 + nth 1 [0; 0] 0) / 2 <> secant [0; 1] [0; 1] 0 /\
  interval_step [0; 1] [0; 1] [0; 0] None ([], []) 0
  = Raise UnboundLocalError.
Proof.
  split.
  - unfold secant. simpl. lra.
  - unfold interval_step. run. rdec. reflexivity.
Qed.

(** ** Monotone data *)

Lemma slopes_example_4 :
  estimate_slopes [0; 24; 31] [0; 7; 31]
  = Ok [- (331 / 672); 625 / 336; 2831 / 672].
Proof.
  assert (E1 : sqrt ((24 - 0) ^ 2 + (7 - 0) ^ 2) = 25) by (apply sqrt_lem_1; lra).
  assert (E2 : sqrt ((31 - 24) ^ 2 + (31 - 7) ^ 2) = 25) by (apply sqrt_lem_1; lra).
  unfold estimate_slopes, chord_lengths, secants. run. rewrite E1, E2.
  unfold slope_step. run. rdec. run.
  f_equal. f_equal; [lra|]. f_equal; [lra|]. f_equal. lra.
Qed.

Lemma knot_example_4 :
  new_knot 0 24 (- (331 / 672)) (625 / 336) ((7 - 0) / (24 - 0)) = 16.
Proof.
  unfold new_knot, Rabs. rdec. clear. field.
Qed.

(** C4 fails on the code: the data x = [0, 24, 31], y = [0, 7, 31] are
    increasing, the estimated slope at the first point is negative, and on
    the first sub-interval [0, 16] the spline is lower at 1 than at 0. *)
Theorem monotone_data_spline_decreases :
  (forall i, (S i < length [0; 7; 31])%nat ->
     nth i [0; 7; 31] 0 <= nth (S i) [0; 7; 31] 0) /\
  exists K C,
    schumaker_spline [0; 24; 31] [0; 7; 31] None "coeffs"
    = Ok (OutCoeffs K C) /\
    nth 0 K 0 = 0 /\ nth 1 K 0 = 16 /\
    snd (fst (nth 0 C zero_coeff)) < 0 /\
    quad_eval (nth 0 C zero_coeff) (nth 0 K 0) 1
    < quad_eval (nth 0 C zero_coeff) (nth 0 K 0) 0.
Proof.
  split.
  { intros i Hi. simpl in Hi.
    repeat (destruct i as [|i]; [simpl; lra|]). simpl in Hi. lia. }
  unfold schumaker_spline, build. cbn zeta. rewrite slopes_example_4.
  unfold secants. run.
  unfold interval_step. run. rdec. run. rewrite knot_example_4.
  destruct (split_coeffs 24 31 _ _ _ _ _) as [c3 c4].
  unfold split_coeffs. run. unfold Rltb. rdec. run.
  eexists. eexists. split; [reflexivity|].
  split; [reflexivity|]. split; [reflexivity|].
  cbn [nth fst snd]. unfold quad_eval. split; lra.
Qed.

(** ** A subdivision close to an end point *)

Lemma slopes_example_8 :
  estimate_slopes tiny_x tiny_y
  = Ok [28600000009 / 31200000012; 13000000009 / 31200000012; 0; 0].
Proof.
  assert (E1 : sqrt ((4 / 1000000000 - 0) ^ 2 + (3 / 1000000000 - 0) ^ 2)
               = 5 / 1000000000) by (apply sqrt_lem_1; lra).
  assert (E2 : sqrt ((12000000004 / 1000000000 - 4 / 1000000000) ^ 2
                     + (5000000003 / 1000000000 - 3 / 1000000000) ^ 2) = 13)
    by (apply sqrt_lem_1; lra).
  unfold estimate_slopes, chord_lengths, secants, tiny_x, tiny_y.
  run. rewrite E1, E2.
  unfold slope_step. run. rdec. run.
  f_equal. f_equal; [lra|]. f_equal; [lra|]. f_equal. f_equal. lra.
Qed.

Lemma knot_example_8 :
  new_knot (4 / 1000000000) (12000000004 / 1000000000)
    (13000000009 / 31200000012) 0
    ((5000000003 / 1000000000 - 3 / 1000000000)
     / (12000000004 / 1000000000 - 4 / 1000000000))
  = 12000000004 / 1000000000 - 48 / 13000000009.
Proof.
  unfold new_knot, Rabs. rdec. clear. field.
Qed.

(** In exact arithmetic too a small beta is not rejected: on this input
    the right part of the second interval has width beta = 48/13000000009
    (less than 4e-9); nothing is raised, and the routine returns the
    coefficients, the quadratic one of that piece being below -10^7. *)
Lemma tiny_beta_not_rejected :
  valid_input tiny_x tiny_y None /\
  exists K C,
    schumaker_spline tiny_x tiny_y None "coeffs" = Ok (OutCoeffs K C) /\
    nth 4 K 0 = nth 2 tiny_x 0 /\
    nth 4 K 0 - nth 3 K 0 = 48 / 13000000009 /\
    snd (nth 3 C zero_coeff) < - 10000000.
Proof.
  split.
  { unfold tiny_x, tiny_y. valid_tac. }
  unfold schumaker_spline, build. cbn zeta. rewrite slopes_example_8.
  unfold secants, tiny_x, tiny_y. run.
  unfold interval_step. run. rdec. run. rewrite knot_example_8.
  destruct (split_coeffs 0 _ _ _ _ _ _) as [c1 c2].
  unfold split_coeffs. run. unfold Rltb. rdec. run.
  eexists. eexists. split; [reflexivity|].
  cbn [nth snd]. split; [reflexivity|]. split; [lra|].
  clear. lra.
Qed.

(** In exact arithmetic: on a well-formed input the routine either returns
    the knots and coefficients or, with supplied slopes that need a
    subdivision, raises [UnboundLocalError]; and in every interval the
    inserted knot leaves alpha > 0 and beta > 0, however small. *)
Lemma subdivision_exact (x y : list R) (s : option (list R)) :
  valid_input x y s ->
  ((exists K C, schumaker_spline x y s "coeffs" = Ok (OutCoeffs K C)) \/
   (s <> None /\
    schumaker_spline x y s "coeffs" = Raise UnboundLocalError)) /\
  (forall sl i di, (i + 1 < length x)%nat ->
     0 < knot_of x sl i di - nth i x 0 /\
     0 < nth (i + 1) x 0 - knot_of x sl i di).
Proof.
  intros H. split.
  - destruct (schumaker_valid x y s H) as [(K & C & E & _)|[N E]].
    + left. eauto.
    + right. auto.
  - intros sl i di Hi. destruct H as (_ & _ & Hx & _).
    assert (Hlt : nth i x 0 < nth (i + 1) x 0).
    { replace (i + 1)%nat with (S i) by lia. apply Hx. lia. }
    pose proof (new_knot_inside (nth i x 0) (nth (i + 1) x 0) (nth i sl 0)
                  (nth (i + 1) sl 0) di Hlt) as Hin.
    fold (knot_of x sl i di) in Hin. lra.
Qed.

(** * Further properties of the routine *)

(** ** Linked quantities along the pieces *)

Lemma quad_eval_derivative (c : coeff) (t t' : R) :
  derivable_pt_lim (fun v => quad_eval c t v) t' (deriv_eval c t t').
Proof.
  destruct c as [[a b] c2]. unfold deriv_eval, coeff_B, coeff_C, quad_eval.
  cbn [fst snd]. intros eps Heps.
  assert (Hd : 0 < eps / (Rabs c2 + 1)).
  { apply Rdiv_lt_0_compat; [assumption|]. pose proof (Rabs_pos c2). lra. }
  exists (mkposreal _ Hd). intros h Hh Hlt. cbn [pos] in Hlt.
  replace ((a + b * (t' + h - t) + c2 * (t' + h - t) ^ 2
            - (a + b * (t' - t) + c2 * (t' - t) ^ 2)) / h
           - (b + 2 * c2 * (t' - t)))
    with (c2 * h) by (field; assumption).
  rewrite Rabs_mult.
  pose proof (Rabs_pos c2) as Hc. pose proof (Rabs_pos h) as Hp.
  assert (Hb : Rabs h * (Rabs c2 + 1) < eps).
  { apply (Rmult_lt_compat_r (Rabs c2 + 1)) in Hlt; [|lra].
    unfold Rdiv in Hlt. rewrite Rmult_assoc, Rinv_l in Hlt by lra. lra. }
  nra.
Qed.

Section Links.

Variable f : coeff -> R -> R -> R.
Variable g : coeff -> R.

Lemma links_length (K : list R) (C : list coeff) (tend vend : R) :
  links f g K C tend vend -> length C = length K.
Proof.
  revert C; induction K as [|t K IH]; intros [|c C] H; simpl in *; try tauto.
  f_equal. apply IH. tauto.
Qed.

Lemma links_snoc (K : list R) (C : list coeff) (t v t' v' : R) (c : coeff) :
  links f g K C t v -> g c = v -> f c t t' = v' ->
  links f g (K ++ [t]) (C ++ [c]) t' v'.
Proof.
  intros H Hg Hf. revert C H.
  induction K as [|t0 K IH]; intros [|c0 C] H; simpl in H; try tauto.
  - simpl. auto.
  - destruct H as (H1 & H2).
    change (links f g (t0 :: (K ++ [t])) (c0 :: (C ++ [c])) t' v').
    cbn [links]. split.
    + pose proof (links_length _ _ _ _ H2) as HL.
      destruct K, C; simpl in *; try discriminate; congruence.
    + apply IH. assumption.
Qed.

Lemma links_inner (K : list R) (C : list coeff) (tend vend : R) :
  links f g K C tend vend ->
  forall j, (S j < length K)%nat ->
    f (nth j C zero_coeff) (nth j (K ++ [tend]) 0) (nth (S j) (K ++ [tend]) 0)
    = g (nth (S j) C zero_coeff).
Proof.
  revert C; induction K as [|t K IH]; intros [|c C] H j Hj; simpl in H, Hj;
    try tauto; try lia.
  destruct H as (H2 & H3).
  destruct j as [|j].
  - destruct K as [|t1 K]; [simpl in Hj; lia|].
    destruct C as [|c1 C]; [simpl in H3; tauto|].
    simpl in *. assumption.
  - apply (IH _ H3 j). lia.
Qed.

Lemma links_last (K : list R) (C : list coeff) (tend vend : R) :
  links f g K C tend vend -> (1 <= length K)%nat ->
  f (nth (length K - 1) C zero_coeff) (nth (length K - 1) K 0) tend = vend.
Proof.
  revert C; induction K as [|t K IH]; intros [|c C] H HL; simpl in H, HL;
    try tauto; try lia.
  destruct H as (H2 & H3).
  destruct K as [|t1 K].
  - destruct C as [|c1 C]; [|simpl in H3; tauto]. simpl in *. assumption.
  - specialize (IH _ H3). cbn [length] in *.
    replace (S (S (length K)) - 1)%nat with (S (length K)) by lia.
    replace (S (length K) - 1)%nat with (length K) in IH by lia.
    cbn [nth]. apply IH. lia.
Qed.

End Links.

Lemma chain_links (K : list R) (C : list coeff) (tend yend : R) :
  chain K C tend yend -> links quad_eval coeff_A K C tend yend.
Proof.
  revert C; induction K as [|t K IH]; intros [|c C] H; simpl in *; try tauto.
  destruct H as (_ & H2 & H3). split; [assumption|]. apply IH. assumption.
Qed.

(** ** Slopes along one interval *)

Lemma single_coeff_slopes (xi xi1 yi si si1 : R) :
  xi < xi1 ->
  deriv_eval (yi, si, (si1 - si) / (2 * (xi1 - xi))) xi xi1 = si1.
Proof.
  intros H. unfold deriv_eval, coeff_B, coeff_C. cbn [fst snd]. field. lra.
Qed.

Lemma split_coeffs_slopes (xi xi1 yi yi1 si si1 e : R) :
  xi < e < xi1 ->
  coeff_A (fst (split_coeffs xi xi1 yi yi1 si si1 e)) = yi /\
  coeff_B (fst (split_coeffs xi xi1 yi yi1 si si1 e)) = si /\
  deriv_eval (fst (split_coeffs xi xi1 yi yi1 si si1 e)) xi e
  = coeff_B (snd (split_coeffs xi xi1 yi yi1 si si1 e)) /\
  deriv_eval (snd (split_coeffs xi xi1 yi yi1 si si1 e)) e xi1 = si1.
Proof.
  intros [H1 H2].
  unfold split_coeffs, deriv_eval, coeff_A, coeff_B, coeff_C. cbn [fst snd].
  split; [reflexivity|]. split; [reflexivity|]. split; field; lra.
Qed.

Section DataLoop.

Variables x y s : list R.
Variable delta : option (list R).
Hypothesis Hy : length y = length x.
Hypothesis Hs : length s = length x.
Hypothesis Hx : strictly_increasing x.

Lemma interval_step_data (k : nat) (st st' : list R * list coeff) :
  (k + 1 < length x)%nat -> length (snd st) = length (fst st) ->
  data_inv x y s k st ->
  interval_step x y s delta st k = Ok st' -> data_inv x y s (S k) st'.
Proof.
  intros Hk HL (Hl & Hd) E. destruct st as [K C]. cbn [fst snd] in *.
  rewrite (interval_step_eq x y s Hy Hs) in E by assumption.
  assert (Hlt : nth k x 0 < nth (k + 1) x 0).
  { replace (k + 1)%nat with (S k) by lia. apply Hx. lia. }
  replace (S k) with (k + 1)%nat by lia.
  assert (Hold : forall K2 C2 i, (i < k)%nat ->
            exists j, (j < length (K ++ K2))%nat /\
              nth j (K ++ K2) 0 = nth i x 0 /\
              coeff_A (nth j (C ++ C2) zero_coeff) = nth i y 0 /\
              coeff_B (nth j (C ++ C2) zero_coeff) = nth i s 0).
  { intros K2 C2 i Hi. destruct (Hd i Hi) as (j & Hj & E1 & E2 & E3).
    exists j. rewrite length_app.
    rewrite !app_nth1 by lia. repeat split; auto. lia. }
  destruct (Req_dec_T _ _) as [Eq|Ne].
  - injection E as <-. unfold data_inv. cbn [fst snd]. split.
    + apply links_snoc with (v := nth k s 0); auto.
      apply single_coeff_slopes. assumption.
    + intros i Hi. destruct (Nat.eq_dec i k) as [->|Hne].
      * exists (length K). rewrite length_app. cbn [length].
        split; [lia|]. split; [apply nth_middle|].
        rewrite <- HL, nth_middle. split; reflexivity.
      * apply Hold. lia.
  - destruct delta as [dl|]; [|discriminate].
    destruct (getitem dl k) as [di|]; [|discriminate].
    cbn [bind] in E.
    pose proof (new_knot_inside (nth k x 0) (nth (k + 1) x 0) (nth k s 0)
                  (nth (k + 1) s 0) di Hlt) as Hin.
    fold (knot_of x s k di) in Hin.
    pose proof (split_coeffs_slopes (nth k x 0) (nth (k + 1) x 0) (nth k y 0)
                  (nth (k + 1) y 0) (nth k s 0) (nth (k + 1) s 0)
                  (knot_of x s k di) Hin) as HS.
    fold (pair_of x y s k di) in HS.
    destruct (pair_of x y s k di) as [c1 c2]. cbn [fst snd] in *.
    destruct HS as (HA & HB & HD1 & HD2). injection E as <-.
    unfold data_inv. cbn [fst snd]. split.
    + apply links_snoc with (v := coeff_B c2); auto.
      apply links_snoc with (v := nth k s 0); auto.
    + intros i Hi. rewrite <- !app_assoc. cbn [app].
      destruct (Nat.eq_dec i k) as [->|Hne].
      * exists (length K). rewrite length_app. cbn [length].
        split; [lia|]. split; [apply nth_middle|].
        rewrite <- HL, nth_middle. split; assumption.
      * apply Hold. lia.
Qed.

Lemma segments_data (k : nat) (st : list R * list coeff) :
  (k < length x)%nat -> segments x y s delta k = Ok st -> data_inv x y s k st.
Proof.
  revert st. induction k as [|k IH]; intros st Hk E.
  - unfold segments in E. simpl in E. injection E as <-.
    unfold data_inv. simpl. split; [exact I|]. intros i Hi. lia.
  - rewrite segments_S in E.
    destruct (segments x y s delta k) as [st0|e] eqn:E0; [|discriminate].
    cbn [bind] in E.
    apply (interval_step_data k st0 st); [lia| | |assumption].
    + pose proof (segments_inv x y s delta Hy Hs Hx k st0) as (Hc & _);
        [lia|assumption|].
      apply (chain_length _ _ _ _ Hc).
    + apply IH; [lia | reflexivity].
Qed.

End DataLoop.

(** ** What a returned spline interpolates *)

Lemma build_inv (x y : list R) (s : option (list R)) (K : list R)
  (C : list coeff) :
  valid_input x y s -> build x y s = Ok (K, C) ->
  exists sl delta K0,
    slopes_of x y s = Ok (sl, delta) /\ length sl = length x /\
    segments x y sl delta (length x - 1) = Ok (K0, C) /\
    K = K0 ++ [nth (length x - 1) x 0].
Proof.
  intros H B.
  rewrite (build_wellformed _ _ _ (valid_not_malformed _ _ _ H)) in B.
  destruct H as (Hy & Hn & Hx & Hs). unfold construct in B.
  assert (Hsl : forall sl delta, slopes_of x y s = Ok (sl, delta) ->
                  length sl = length x).
  { intros sl delta E. destruct s as [s'|]; cbn [slopes_of] in E.
    - injection E as <- _. assumption.
    - destruct (estimate_slopes_total x y Hy Hn) as (s0 & E0 & L0).
      rewrite E0 in E. cbn [bind] in E. injection E as <- _. assumption. }
  destruct (slopes_of x y s) as [[sl delta]|e] eqn:Esl; [|discriminate].
  cbn [bind] in B.
  destruct (segments x y sl delta (length x - 1)) as [[K0 C0]|e] eqn:Sg;
    [|discriminate].
  cbn [bind] in B. rewrite (getitem_nth x (length x - 1) 0) in B by lia.
  cbn [bind] in B. injection B as <- <-.
  exists sl, delta, K0. split; [reflexivity|].
  split; [apply (Hsl sl delta); reflexivity|]. split; [exact Sg|reflexivity].
Qed.

Lemma schumaker_build (x y : list R) (s : option (list R)) (K : list R)
  (C : list coeff) :
  schumaker_spline x y s "coeffs" = Ok (OutCoeffs K C) ->
  build x y s = Ok (K, C).
Proof.
  rewrite schumaker_coeffs. destruct (build x y s) as [[K' C']|e];
    cbn [bind]; [|discriminate].
  intros E. injection E as <- <-. reflexivity.
Qed.


(** X1: a returned spline interpolates the data.  Every data abscissa
    [x[i]], [i < n-1], is a knot at which a piece starts with value [y[i]];
    the last knot is [x[n-1]] and the last piece takes the value [y[n-1]]
    there. *)
Theorem spline_interpolates (x y : list R) (s : option (list R)) :
  valid_input x y s ->
  forall K C,
  schumaker_spline x y s "coeffs" = Ok (OutCoeffs K C) ->
  (forall i, (i + 1 < length x)%nat ->
     exists j, (j < length C)%nat /\ nth j K 0 = nth i x 0 /\
               quad_eval (nth j C zero_coeff) (nth j K 0) (nth j K 0)
               = nth i y 0) /\
  nth (length C) K 0 = nth (length x - 1) x 0 /\
  quad_eval (nth (length C - 1) C zero_coeff) (nth (length C - 1) K 0)
    (nth (length C) K 0) = nth (length x - 1) y 0.
Proof.
  intros H K C E. apply schumaker_build in E.
  destruct (build_inv x y s K C H E) as (sl & delta & K0 & _ & Ls & Sg & ->).
  destruct H as (Hy & Hn & Hx & _).
  pose proof (segments_inv x y sl delta Hy Ls Hx (length x - 1) (K0, C)
                ltac:(lia) Sg)
    as (Hc & Hl & _).
  pose proof (segments_data x y sl delta Hy Ls Hx (length x - 1) (K0, C)
                ltac:(lia) Sg)
    as (_ & Hd).
  cbn [fst snd] in *. pose proof (chain_length _ _ _ _ Hc) as LC.
  split; [|split].
  - intros i Hi. destruct (Hd i ltac:(lia)) as (j & Hj & E1 & E2 & _).
    exists j. rewrite app_nth1 by lia. split; [lia|]. split; [assumption|].
    rewrite <- E2. destruct (nth j C zero_coeff) as [[a b] c].
    unfold quad_eval, coeff_A. cbn [fst]. ring.
  - rewrite LC. apply nth_middle.
  - rewrite LC. rewrite nth_middle. rewrite app_nth1 by lia.
    apply (links_last quad_eval coeff_A K0 C _ _ (chain_links _ _ _ _ Hc)).
    lia.
Qed.

Lemma flat_example :
  {KC : list R * list coeff |
    schumaker_spline [0; 1; 2] [0; 0; 0] None "coeffs"
    = Ok (OutCoeffs (fst KC) (snd KC))}.
Proof.
  eexists (_, _). cbn [fst snd].
  unfold schumaker_spline, build, estimate_slopes, chord_lengths, secants.
  run. unfold slope_step. run. rdec. run.
  unfold interval_step. run. rdec. run. unfold Rltb. rdec. run.
  reflexivity.
Defined.

Lemma spline_interpolates_witness :
  valid_input [0; 1; 2] [0; 0; 0] None /\
  exists K C,
    schumaker_spline [0; 1; 2] [0; 0; 0] None "coeffs" = Ok (OutCoeffs K C) /\
    (forall i, (i + 1 < 3)%nat ->
       exists j, (j < length C)%nat /\ nth j K 0 = nth i [0; 1; 2] 0 /\
                 quad_eval (nth j C zero_coeff) (nth j K 0) (nth j K 0)
                 = nth i [0; 0; 0] 0) /\
    nth (length C) K 0 = 2 /\
    quad_eval (nth (length C - 1) C zero_coeff) (nth (length C - 1) K 0)
      (nth (length C) K 0) = 0.
Proof.
  split; [valid_tac|].
  destruct flat_example as [[K C] E]. cbn [fst snd] in E.
  exists K, C. split; [exact E|].
  apply (spline_interpolates [0; 1; 2] [0; 0; 0] None); [valid_tac | exact E].
Defined.

(** X2: a returned spline is continuously differentiable: at every
    internal knot, inserted ones included, the quadratic that ends there and
    the quadratic that starts there have the same derivative. *)
Theorem spline_derivative_continuous (x y : list R) (s : option (list R)) :
  valid_input x y s ->
  forall K C,
  schumaker_spline x y s "coeffs" = Ok (OutCoeffs K C) ->
  forall j, (1 <= j)%nat -> (j + 1 < length K)%nat ->
    exists d,
      derivable_pt_lim
        (fun v => quad_eval (nth (j - 1) C zero_coeff) (nth (j - 1) K 0) v)
        (nth j K 0) d /\
      derivable_pt_lim
        (fun v => quad_eval (nth j C zero_coeff) (nth j K 0) v)
        (nth j K 0) d.
Proof.
  intros H K C E j Hj1 Hj2. apply schumaker_build in E.
  destruct (build_inv x y s K C H E) as (sl & delta & K0 & _ & Ls & Sg & ->).
  destruct H as (Hy & Hn & Hx & _).
  pose proof (segments_data x y sl delta Hy Ls Hx (length x - 1) (K0, C)
                ltac:(lia) Sg)
    as (Hl & _).
  cbn [fst snd] in *. rewrite length_app in Hj2. cbn [length] in Hj2.
  destruct j as [|j]; [lia|]. replace (S j - 1)%nat with j by lia.
  exists (coeff_B (nth (S j) C zero_coeff)). split.
  - rewrite <- (links_inner deriv_eval coeff_B K0 C _ _ Hl j) by lia.
    apply quad_eval_derivative.
  - replace (coeff_B (nth (S j) C zero_coeff))
      with (deriv_eval (nth (S j) C zero_coeff) (nth (S j) (K0 ++ [nth (length x - 1) x 0]) 0)
              (nth (S j) (K0 ++ [nth (length x - 1) x 0]) 0)).
    + apply quad_eval_derivative.
    + unfold deriv_eval. ring.
Qed.

Lemma spline_derivative_continuous_witness :
  valid_input [0; 1; 2] [0; 0; 0] None /\
  exists K C,
    schumaker_spline [0; 1; 2] [0; 0; 0] None "coeffs" = Ok (OutCoeffs K C) /\
    forall j, (1 <= j)%nat -> (j + 1 < length K)%nat ->
      exists d,
        derivable_pt_lim
          (fun v => quad_eval (nth (j - 1) C zero_coeff) (nth (j - 1) K 0) v)
          (nth j K 0) d /\
        derivable_pt_lim
          (fun v => quad_eval (nth j C zero_coeff) (nth j K 0) v)
          (nth j K 0) d.
Proof.
  split; [valid_tac|].
  destruct flat_example as [[K C] E]. cbn [fst snd] in E.
  exists K, C. split; [exact E|].
  apply (spline_derivative_continuous [0; 1; 2] [0; 0; 0] None);
    [valid_tac | exact E].
Defined.



(** ** Runs without subdivision *)

Lemma map_nth_seq_id (x : list R) :
  map (fun i => nth i x 0) (seq 0 (length x)) = x.
Proof.
  apply (nth_ext _ _ 0 0).
  - rewrite length_map, length_seq. reflexivity.
  - intros i Hi. rewrite length_map, length_seq in Hi.
    rewrite (nth_indep _ 0 (nth 0%nat x 0))
      by (rewrite length_map, length_seq; assumption).
    etransitivity;
      [apply (map_nth (fun i => nth i x 0) (seq 0 (length x)) 0%nat i)|].
    rewrite seq_nth by assumption. reflexivity.
Qed.

Lemma segments_all_single (x y s : list R) (delta : option (list R))
  (k : nat) :
  length y = length x -> length s = length x -> (k < length x)%nat ->
  (forall i, (i < k)%nat ->
     (nth i s 0 + nth (i + 1) s 0) / 2 = secant x y i) ->
  segments x y s delta k
  = Ok (map (fun i => nth i x 0) (seq 0 k), map (single_coeff x y s) (seq 0 k)).
Proof.
  intros Hy Hs. induction k as [|k IH]; intros Hk Ht; [reflexivity|].
  rewrite segments_S, IH by (try lia; intros; apply Ht; lia).
  cbn [bind]. rewrite (interval_step_eq x y s Hy Hs) by lia.
  destruct (Req_dec_T _ _) as [_|Ne]; [|exfalso; apply Ne, Ht; lia].
  rewrite !seq_S, !map_app. reflexivity.
Qed.

Lemma construct_all_single (x y s : list R) (delta : option (list R)) :
  length y = length x -> length s = length x -> (1 <= length x)%nat ->
  (forall i, (i + 1 < length x)%nat ->
     (nth i s 0 + nth (i + 1) s 0) / 2 = secant x y i) ->
  ('(knots, coeffs) <- segments x y s delta (length x - 1) ;;
   xl <- getitem x (length x - 1) ;; Ok (knots ++ [xl], coeffs))
  = Ok (x, map (single_coeff x y s) (seq 0 (length x - 1))).
Proof.
  intros Hy Hs Hn Ht.
  rewrite (segments_all_single x y s delta (length x - 1) Hy Hs)
    by (try lia; intros; apply Ht; lia).
  cbn [bind]. rewrite (getitem_nth x (length x - 1) 0) by lia. cbn [bind].
  replace (map (fun i => nth i x 0) (seq 0 (length x - 1))
           ++ [nth (length x - 1) x 0])
    with (map (fun i => nth i x 0) (seq 0 (S (length x - 1))))
    by (rewrite seq_S, map_app; reflexivity).
  replace (S (length x - 1)) with (length x) by lia.
  rewrite map_nth_seq_id. reflexivity.
Qed.



(** ** Data on a straight line *)

Lemma equal_secants_slopes (x y : list R) (d : R) :
  valid_input x y None ->
  (forall i, (i + 1 < length x)%nat -> secant x y i = d) ->
  (3 <= length x)%nat \/ d = 0 ->
  exists s, estimate_slopes x y = Ok s /\ length s = length x /\
            forall j, (j < length x)%nat -> nth j s 0 = d.
Proof.
  intros (Hy & Hn & Hx & _) Hd Hc.
  destruct (estimate_slopes_eq x y Hy Hn) as (s0 & E0 & E). cbn zeta in E.
  destruct (interior_loop_spec x y Hy (length x - 2)) as (s0' & E0' & Ls & Hj);
    [lia|].
  rewrite E0 in E0'. injection E0' as <-.
  assert (Hint : forall j, (1 <= j <= length x - 2)%nat -> nth j s0 0 = d).
  { intros j Hj1. rewrite Hj.
    replace (1 <=? j)%nat with true by (symmetry; apply Nat.leb_le; lia).
    replace (j <=? length x - 2)%nat with true
      by (symmetry; apply Nat.leb_le; lia).
    cbn [andb]. unfold interior_slope.
    rewrite !Hd by lia.
    destruct (Rlt_dec 0 (d * d)) as [Hp|Hp].
    - pose proof (chord_pos x y (j - 1) Hx ltac:(lia)).
      pose proof (chord_pos x y j Hx ltac:(lia)).
      field. lra.
    - destruct (Req_dec_T d 0) as [->|Hnz]; [reflexivity|].
      exfalso. apply Hp. nra. }
  assert (H1 : nth 1 s0 0 = d \/ (length x = 2%nat /\ nth 1 s0 0 = 0 /\ d = 0)).
  { destruct (Nat.eq_dec (length x) 2) as [E2|N2].
    - right. split; [assumption|]. split; [|destruct Hc; [lia|assumption]].
      rewrite Hj, E2. reflexivity.
    - left. apply Hint. lia. }
  set (v0 := (3 * secant x y 0 - nth 1 s0 0) / 2) in *.
  assert (Hv0 : v0 = d).
  { unfold v0. rewrite Hd by lia. destruct H1 as [->|(_ & -> & ->)]; lra. }
  set (s1 := update s0 0 v0) in *.
  assert (L1 : length s1 = length x) by (unfold s1; rewrite length_update; auto).
  assert (Hs1 : forall j, (j <= length x - 2)%nat -> nth j s1 0 = d).
  { intros j Hj2. unfold s1. destruct (Nat.eq_dec 0 j) as [<-|Hne].
    - rewrite nth_update_eq by lia. assumption.
    - rewrite nth_update_neq by assumption. apply Hint. lia. }
  eexists. split; [exact E|]. split; [rewrite length_update; assumption|].
  intros j Hjn. destruct (Nat.eq_dec (length x - 1) j) as [<-|Hne].
  - rewrite nth_update_eq by lia. rewrite Hd by lia.
    rewrite Hs1 by lia. lra.
  - rewrite nth_update_neq by assumption. apply Hs1. lia.
Qed.

(** X5: in exact arithmetic (for binary64 see [straight_line_binary64]),
    data on a straight line are reproduced exactly.  When no slopes are
    supplied and every secant is [d] (with at least three points, or
    [d = 0]), no knot is inserted: the knots are the data abscissae and the
    triple of interval [i] is [(y[i], d, 0)]. *)
Theorem straight_line_reproduced (x y : list R) (d : R) :
  valid_input x y None ->
  (forall i, (i + 1 < length x)%nat -> secant x y i = d) ->
  (3 <= length x)%nat \/ d = 0 ->
  schumaker_spline x y None "coeffs"
  = Ok (OutCoeffs x (map (fun i => (nth i y 0, d, 0)) (seq 0 (length x - 1)))).
Proof.
  intros H Hd Hc.
  destruct (equal_secants_slopes x y d H Hd Hc) as (s & E & Ls & Hs).
  rewrite schumaker_coeffs.
  rewrite (build_wellformed _ _ _ (valid_not_malformed _ _ _ H)).
  destruct H as (Hy & Hn & Hx & _). unfold construct.
  cbn [slopes_of]. rewrite E. cbn [bind].
  rewrite (construct_all_single x y s _ Hy Ls).
  - cbn [bind]. do 2 f_equal. apply map_ext_in. intros i Hi.
    apply in_seq in Hi. unfold single_coeff.
    rewrite !Hs by lia. do 2 f_equal. unfold Rdiv. ring.
  - lia.
  - intros i Hi. rewrite !Hs, Hd by lia. lra.
Qed.

Lemma straight_line_reproduced_witness :
  valid_input [0; 1; 3] [1; 3; 7] None /\
  schumaker_spline [0; 1; 3] [1; 3; 7] None "coeffs"
  = Ok (OutCoeffs [0; 1; 3]
          (map (fun i => (nth i [1; 3; 7] 0, 2, 0)) (seq 0 (3 - 1)))).
Proof.
  split; [valid_tac|].
  apply (straight_line_reproduced [0; 1; 3] [1; 3; 7] 2); [valid_tac| |].
  - intros i Hi. simpl in Hi.
    destruct i as [|[|i]]; [unfold secant; simpl; lra
                           | unfold secant; simpl; lra | lia].
  - left. simpl. lia.
Defined.

(** ** Two points *)

Lemma two_points_slopes (x0 x1 y0 y1 : R) :
  estimate_slopes [x0; x1] [y0; y1]
  = Ok [(3 * ((y1 - y0) / (x1 - x0)) - 0) / 2;
        (3 * ((y1 - y0) / (x1 - x0))
         - (3 * ((y1 - y0) / (x1 - x0)) - 0) / 2) / 2].
Proof. reflexivity. Qed.

Lemma two_points_new_knot (x0 x1 d : R) :
  d <> 0 ->
  new_knot x0 x1 ((3 * d - 0) / 2) ((3 * d - (3 * d - 0) / 2) / 2) d
  = x0 + (x1 - x0) / 3.
Proof.
  intros Hd.
  assert (Hsq : 0 < d * d).
  { destruct (Rtotal_order d 0) as [H|[H|H]]; [nra | contradiction | nra]. }
  rewrite new_knot_right_closer.
  - field. lra.
  - intros H. nra.
  - unfold Rabs.
    destruct (Rcase_abs _) as [H1|H1]; destruct (Rcase_abs _) as [H2|H2];
      destruct (Rtotal_order d 0) as [H|[H|H]]; try contradiction; lra.
Qed.

(** X6: two points at different heights are never joined by one piece.
    Without supplied slopes the estimated end slopes are 3/2 and 3/4 of the
    secant, and a knot is inserted one third of the way from [x0] to [x1]. *)
Theorem two_points_knot (x0 x1 y0 y1 : R) :
  x0 < x1 -> y0 <> y1 ->
  exists c1 c2,
    schumaker_spline [x0; x1] [y0; y1] None "coeffs"
    = Ok (OutCoeffs [x0; x0 + (x1 - x0) / 3; x1] [c1; c2]) /\
    coeff_B c1 = 3 / 2 * ((y1 - y0) / (x1 - x0)) /\
    deriv_eval c2 (x0 + (x1 - x0) / 3) x1 = 3 / 4 * ((y1 - y0) / (x1 - x0)).
Proof.
  intros Hx Hne.
  assert (Hd : (y1 - y0) / (x1 - x0) <> 0).
  { intros H. apply Hne.
    assert (E : y1 - y0 = (y1 - y0) / (x1 - x0) * (x1 - x0)) by (field; lra).
    rewrite H in E. lra. }
  unfold schumaker_spline, build. cbn zeta. rewrite two_points_slopes.
  unfold secants. run. unfold Rltb.
  destruct (Rlt_dec 0 (x1 - x0)) as [_|N]; [|exfalso; lra]. run.
  unfold interval_step. run.
  destruct (Req_dec_T _ _) as [E|_]; [exfalso; apply Hd; lra|]. run.
  rewrite (two_points_new_knot x0 x1 _ Hd).
  pose proof (split_coeffs_slopes x0 x1 y0 y1
                ((3 * ((y1 - y0) / (x1 - x0)) - 0) / 2)
                ((3 * ((y1 - y0) / (x1 - x0))
                  - (3 * ((y1 - y0) / (x1 - x0)) - 0) / 2) / 2)
                (x0 + (x1 - x0) / 3) ltac:(lra)) as (_ & HB & _ & HD).
  destruct (split_coeffs _ _ _ _ _ _ _) as [c1 c2]. cbn [fst snd] in *. run.
  exists c1, c2. split; [reflexivity|]. split; lra.
Qed.

Lemma two_points_knot_witness :
  0 < 3 /\ 1 <> 2 /\
  exists c1 c2,
    schumaker_spline [0; 3] [1; 2] None "coeffs"
    = Ok (OutCoeffs [0; 0 + (3 - 0) / 3; 3] [c1; c2]) /\
    coeff_B c1 = 3 / 2 * ((2 - 1) / (3 - 0)) /\
    deriv_eval c2 (0 + (3 - 0) / 3) 3 = 3 / 4 * ((2 - 1) / (3 - 0)).
Proof.
  split; [lra|]. split; [lra|].
  apply (two_points_knot 0 3 1 2); lra.
Defined.

(** ** Interior slopes stay between the secants *)

Lemma estimate_slopes_interior (x y : list R) :
  valid_input x y None ->
  exists s, estimate_slopes x y = Ok s /\
    forall i, (1 <= i <= length x - 2)%nat -> nth i s 0 = interior_slope x y i.
Proof.
  intros (Hy & Hn & _ & _).
  destruct (estimate_slopes_eq x y Hy Hn) as (s0 & E0 & E). cbn zeta in E.
  destruct (interior_loop_spec x y Hy (length x - 2)) as (s0' & E0' & Ls & Hj);
    [lia|].
  rewrite E0 in E0'. injection E0' as <-.
  eexists. split; [exact E|]. intros i Hi.
  rewrite !nth_update_neq by lia. rewrite Hj.
  replace (1 <=? i)%nat with true by (symmetry; apply Nat.leb_le; lia).
  replace (i <=? length x - 2)%nat with true
    by (symmetry; apply Nat.leb_le; lia).
  reflexivity.
Qed.

Lemma blend_between (L0 L1 d0 d1 : R) :
  0 < L0 -> 0 < L1 ->
  Rmin d0 d1 <= (L0 * d0 + L1 * d1) / (L0 + L1) <= Rmax d0 d1.
Proof.
  intros H0 H1.
  destruct (ratio_bounds L1 L0 H1 H0) as [W0 W1].
  replace ((L0 * d0 + L1 * d1) / (L0 + L1))
    with (d0 + L1 / (L1 + L0) * (d1 - d0)) by (field; lra).
  unfold Rmin, Rmax. destruct (Rle_dec d0 d1); split; nra.
Qed.

(** X7: in exact arithmetic (for binary64 see [blended_slope_binary64]),
    the estimated slope at an interior point lies
    between the secants
    of its two neighbouring intervals (it is a blend of them with positive
    weights, or zero); in particular it is non-negative where both secants
    are, and non-positive where both are. *)
Theorem interior_slopes_between (x y : list R) :
  valid_input x y None ->
  exists s,
    estimate_slopes x y = Ok s /\
    forall i, (1 <= i <= length x - 2)%nat ->
      (secant x y (i - 1) * secant x y i > 0 ->
       Rmin (secant x y (i - 1)) (secant x y i) <= nth i s 0
       <= Rmax (secant x y (i - 1)) (secant x y i)) /\
      (0 <= secant x y (i - 1) -> 0 <= secant x y i -> 0 <= nth i s 0) /\
      (secant x y (i - 1) <= 0 -> secant x y i <= 0 -> nth i s 0 <= 0).
Proof.
  intros H. destruct (estimate_slopes_interior x y H) as (s & E & Hi).
  exists s. split; [exact E|]. intros i Hr. rewrite (Hi i Hr).
  destruct H as (_ & _ & Hx & _).
  pose proof (chord_pos x y (i - 1) Hx ltac:(lia)) as L0.
  pose proof (chord_pos x y i Hx ltac:(lia)) as L1.
  pose proof (blend_between _ _ (secant x y (i - 1)) (secant x y i) L0 L1)
    as [B0 B1].
  unfold interior_slope.
  destruct (Rlt_dec _ _) as [Hp|Hp].
  - split; [intros _; split; assumption|].
    revert B0 B1. unfold Rmin, Rmax.
    destruct (Rle_dec _ _); intros B0 B1; split; intros; lra.
  - split; [intros Hq; unfold Rgt in Hq; contradiction|].
    split; intros; lra.
Qed.

Lemma interior_slopes_between_witness :
  valid_input [0; 1; 3] [0; 1; 2] None /\
  exists s,
    estimate_slopes [0; 1; 3] [0; 1; 2] = Ok s /\
    (0 <= secant [0; 1; 3] [0; 1; 2] 0 -> 0 <= secant [0; 1; 3] [0; 1; 2] 1 ->
     0 <= nth 1 s 0).
Proof.
  split; [valid_tac|].
  destruct (interior_slopes_between [0; 1; 3] [0; 1; 2]) as (s & E & H);
    [valid_tac|].
  exists s. split; [exact E|].
  exact (proj1 (proj2 (H 1%nat ltac:(simpl; lia)))).
Defined.

(** ** The exported pieces over the domain *)

Lemma increasing_le (K : list R) (i j : nat) :
  strictly_increasing K -> (i <= j)%nat -> (j < length K)%nat ->
  nth i K 0 <= nth j K 0.
Proof.
  intros HK Hij Hj. induction j as [|j IH].
  - replace i with 0%nat by lia. lra.
  - destruct (Nat.eq_dec i (S j)) as [->|Hne]; [lra|].
    assert (nth i K 0 <= nth j K 0) by (apply IH; lia).
    pose proof (HK j Hj). lra.
Qed.

Lemma increasing_cover (K : list R) (v : R) (m : nat) :
  (1 <= m)%nat -> (m < length K)%nat ->
  nth 0 K 0 <= v <= nth m K 0 ->
  exists i, (i < m)%nat /\ nth i K 0 <= v <= nth (i + 1) K 0.
Proof.
  intros H1 Hm. induction m as [|m IH]; [lia|]. intros [Hv0 Hv1].
  destruct (Nat.eq_dec m 0) as [->|Hne].
  - exists 0%nat. split; [lia|]. simpl. split; assumption.
  - destruct (Rle_dec v (nth m K 0)) as [Hle|Hgt].
    + destruct IH as (i & Hi & Hb); [lia | lia | split; assumption |].
      exists i. split; [lia | assumption].
    + exists m. split; [lia|]. replace (m + 1)%nat with (S m) by lia. lra.
Qed.

Lemma schumaker_sympy_inv (x y : list R) (s : option (list R))
  (P : list piece) :
  valid_input x y s ->
  schumaker_spline x y s "sympy" = Ok (OutPiecewise P) ->
  exists K C,
    schumaker_spline x y s "coeffs" = Ok (OutCoeffs K C) /\
    P = map (piece_at K C) (seq 0 (length K - 1)).
Proof.
  intros H E. rewrite schumaker_sympy in E. rewrite schumaker_coeffs.
  destruct (build x y s) as [[K C]|e] eqn:B; [|discriminate].
  cbn [bind] in *. exists K, C. split; [reflexivity|].
  destruct (build_inv x y s K C H B) as (sl & delta & K0 & _ & Ls & Sg & EK).
  destruct H as (Hy & Hn & Hx & _).
  pose proof (segments_inv x y sl delta Hy Ls Hx (length x - 1) (K0, C)
                ltac:(lia) Sg) as (Hc & _).
  cbn [fst snd] in Hc. pose proof (chain_length _ _ _ _ Hc) as LC.
  assert (LK : length K = (length K0 + 1)%nat).
  { rewrite EK, length_app. reflexivity. }
  rewrite pieces_loop in E by lia. cbn [bind] in E.
  destruct (map (piece_at K C) (seq 0 (length K - 1))) as [|p ps];
    cbn [Piecewise] in E; [discriminate|].
  injection E as <-. reflexivity.
Qed.

Lemma nth_pieces (K : list R) (C : list coeff) (i : nat) :
  (i < length K - 1)%nat ->
  nth i (map (piece_at K C) (seq 0 (length K - 1))) (Sym, Ge Sym Sym)
  = piece_at K C i.
Proof.
  intros Hi.
  rewrite (nth_indep _ _ (piece_at K C 0%nat))
    by (rewrite length_map, length_seq; assumption).
  rewrite map_nth. rewrite seq_nth by assumption. reflexivity.
Qed.

Lemma cond_holds_piece_at (K : list R) (C : list coeff) (i : nat) (v : R) :
  cond_holds (snd (piece_at K C i)) v <-> nth i K 0 <= v <= nth (i + 1) K 0.
Proof.
  unfold piece_at. destruct (nth i C zero_coeff) as [[a b] c]. cbn [snd].
  apply cond_holds_condition.
Qed.

Lemma expr_eval_piece_at (K : list R) (C : list coeff) (i : nat) (v : R) :
  expr_eval (fst (piece_at K C i)) v = quad_eval (nth i C zero_coeff) (nth i K 0) v.
Proof.
  unfold piece_at, quad_eval. destruct (nth i C zero_coeff) as [[a b] c].
  reflexivity.
Qed.

(** X8: the conditions of the exported pieces cover exactly the data range:
    a point [v] satisfies the condition of some piece if and only if
    [x[0] <= v <= x[n-1]]. *)
Theorem export_covers_domain (x y : list R) (s : option (list R)) :
  valid_input x y s ->
  forall P,
  schumaker_spline x y s "sympy" = Ok (OutPiecewise P) ->
  forall v,
    (exists i, (i < length P)%nat /\
               cond_holds (snd (nth i P (Sym, Ge Sym Sym))) v)
    <-> nth 0 x 0 <= v <= nth (length x - 1) x 0.
Proof.
  intros H P E v.
  destruct (schumaker_sympy_inv x y s P H E) as (K & C & EC & ->).
  apply schumaker_build in EC.
  destruct (build_inv x y s K C H EC) as (sl & delta & K0 & _ & Ls & Sg & EK).
  destruct H as (Hy & Hn & Hx & _).
  pose proof (segments_inv x y sl delta Hy Ls Hx (length x - 1) (K0, C)
                ltac:(lia) Sg) as (Hc & Hl & Hh).
  cbn [fst snd] in *.
  assert (LK : length K = (length K0 + 1)%nat).
  { rewrite EK, length_app. reflexivity. }
  assert (HK : strictly_increasing K).
  { rewrite EK. eapply chain_increasing. eassumption. }
  assert (K0x : nth 0 K 0 = nth 0 x 0).
  { rewrite EK. destruct K0 as [|t K0]; [simpl in Hl; lia|].
    simpl in *. assumption. }
  assert (Knx : nth (length K - 1) K 0 = nth (length x - 1) x 0).
  { rewrite LK, EK. replace (length K0 + 1 - 1)%nat with (length K0) by lia.
    apply nth_middle. }
  rewrite length_map, length_seq. rewrite <- K0x, <- Knx. split.
  - intros (i & Hi & Hcnd). rewrite nth_pieces in Hcnd by assumption.
    apply cond_holds_piece_at in Hcnd.
    pose proof (increasing_le K 0 i HK ltac:(lia) ltac:(lia)).
    pose proof (increasing_le K (i + 1) (length K - 1) HK ltac:(lia)
                  ltac:(lia)).
    lra.
  - intros Hv.
    destruct (increasing_cover K v (length K - 1)) as (i & Hi & Hb);
      [lia | lia | assumption |].
    exists i. split; [assumption|]. rewrite nth_pieces by assumption.
    apply cond_holds_piece_at. assumption.
Qed.

Lemma export_covers_domain_witness :
  valid_input [0; 1; 2] [0; 0; 0] None /\
  forall P,
    schumaker_spline [0; 1; 2] [0; 0; 0] None "sympy" = Ok (OutPiecewise P) ->
    forall v,
      (exists i, (i < length P)%nat /\
                 cond_holds (snd (nth i P (Sym, Ge Sym Sym))) v)
      <-> nth 0 [0; 1; 2] 0 <= v <= nth (3 - 1) [0; 1; 2] 0.
Proof.
  split; [valid_tac|].
  apply (export_covers_domain [0; 1; 2] [0; 0; 0] None). valid_tac.
Defined.

(** With estimated slopes the symbolic mode returns. *)
Lemma sympy_returns (x y : list R) :
  valid_input x y None ->
  exists P,
    schumaker_spline x y None "sympy" = Ok (OutPiecewise P) /\
    (length x - 1 <= length P)%nat.
Proof.
  intros H.
  destruct (schumaker_valid x y None H) as [(K0 & C & _ & B & Hi)|[N _]];
    [|contradiction].
  destruct Hi as (Hc & Hl & _). cbn [fst snd] in *.
  destruct H as (_ & Hn & _ & _).
  pose proof (chain_length _ _ _ _ Hc) as LC.
  rewrite schumaker_sympy, B. cbn [bind].
  rewrite length_app. cbn [length].
  rewrite pieces_loop by (rewrite ?length_app; cbn [length]; lia).
  cbn [bind].
  replace (length K0 + 1 - 1)%nat with (S (length K0 - 1)) by lia.
  set (P := map (piece_at (K0 ++ [nth (length x - 1) x 0]) C)
              (seq 0 (S (length K0 - 1)))).
  assert (LP : length P = S (length K0 - 1)).
  { unfold P. rewrite length_map, length_seq. reflexivity. }
  exists P. split; [|lia].
  destruct P; [discriminate | reflexivity].
Qed.

(** X9: in exact arithmetic, at a knot shared by two exported pieces both
    conditions hold and
    both expressions take the same value, so the closed ends of the
    intervals never give two different values. *)
Theorem export_agrees_at_knots (x y : list R) (s : option (list R)) :
  valid_input x y s ->
  forall P,
  schumaker_spline x y s "sympy" = Ok (OutPiecewise P) ->
  forall j, (1 <= j)%nat -> (j < length P)%nat ->
    exists t,
      cond_holds (snd (nth (j - 1) P (Sym, Ge Sym Sym))) t /\
      cond_holds (snd (nth j P (Sym, Ge Sym Sym))) t /\
      expr_eval (fst (nth (j - 1) P (Sym, Ge Sym Sym))) t
      = expr_eval (fst (nth j P (Sym, Ge Sym Sym))) t /\
      forall v, cond_holds (snd (nth (j - 1) P (Sym, Ge Sym Sym))) v ->
                cond_holds (snd (nth j P (Sym, Ge Sym Sym))) v -> v = t.
Proof.
  intros H P E j Hj1 Hj2.
  destruct (schumaker_sympy_inv x y s P H E) as (K & C & EC & ->).
  apply schumaker_build in EC.
  destruct (build_inv x y s K C H EC) as (sl & delta & K0 & _ & Ls & Sg & EK).
  destruct H as (Hy & Hn & Hx & _).
  pose proof (segments_inv x y sl delta Hy Ls Hx (length x - 1) (K0, C)
                ltac:(lia) Sg) as (Hc & Hl & Hh).
  cbn [fst snd] in *.
  assert (LK : length K = (length K0 + 1)%nat).
  { rewrite EK, length_app. reflexivity. }
  assert (HK : strictly_increasing K).
  { rewrite EK. eapply chain_increasing. eassumption. }
  rewrite length_map, length_seq in Hj2.
  destruct j as [|j]; [lia|]. replace (S j - 1)%nat with j by lia.
  rewrite !nth_pieces by lia.
  pose proof (HK j ltac:(lia)) as I1.
  pose proof (HK (S j) ltac:(lia)) as I2.
  exists (nth (S j) K 0).
  rewrite !cond_holds_piece_at, !expr_eval_piece_at.
  replace (j + 1)%nat with (S j) by lia.
  replace (S j + 1)%nat with (S (S j)) by lia.
  split; [lra|]. split; [lra|]. split.
  - rewrite EK. rewrite (chain_continuous K0 C _ _ Hc j) by lia.
    destruct (nth (S j) C zero_coeff) as [[a b] c].
    unfold quad_eval, coeff_A. cbn [fst]. ring.
  - intros v Hv1 Hv2. apply cond_holds_piece_at in Hv1.
    apply cond_holds_piece_at in Hv2.
    replace (j + 1)%nat with (S j) in Hv1 by lia. lra.
Qed.

Lemma export_agrees_at_knots_witness :
  valid_input [0; 1; 2] [0; 0; 0] None /\
  exists P,
    schumaker_spline [0; 1; 2] [0; 0; 0] None "sympy" = Ok (OutPiecewise P) /\
    (1 < length P)%nat /\
    exists t,
      cond_holds (snd (nth 0 P (Sym, Ge Sym Sym))) t /\
      cond_holds (snd (nth 1 P (Sym, Ge Sym Sym))) t /\
      expr_eval (fst (nth 0 P (Sym, Ge Sym Sym))) t
      = expr_eval (fst (nth 1 P (Sym, Ge Sym Sym))) t.
Proof.
  assert (V : valid_input [0; 1; 2] [0; 0; 0] None) by valid_tac.
  split; [exact V|].
  destruct (sympy_returns [0; 1; 2] [0; 0; 0] V) as (P & E & HP).
  assert (HP1 : (1 < length P)%nat) by (simpl in HP; lia).
  exists P. split; [exact E|]. split; [exact HP1|].
  destruct (export_agrees_at_knots [0; 1; 2] [0; 0; 0] None V
              P E 1%nat ltac:(lia) HP1) as (t & H1 & H2 & H3 & _).
  exists t. split; [exact H1|]. split; [exact H2 | exact H3].
Defined.

(** ** Which assertion fails *)

Lemma schumaker_raise (x y : list R) (s : option (list R))
  (return_type : string) (e : exn) :
  build x y s = Raise e -> schumaker_spline x y s return_type = Raise e.
Proof. intros B. unfold schumaker_spline. rewrite B. reflexivity. Qed.

(** X10: the three assertions are tried in the order of lines 21, 22, 25,
    and the first that fails gives the message: a length mismatch between x
    and y is reported whatever else is wrong; non-ascending x is reported
    next; a slope sequence of the wrong length is reported only when x and y
    pass. *)
Theorem validation_messages (x y : list R) (s : option (list R))
  (return_type : string) :
  (length y <> length x ->
   schumaker_spline x y s return_type
   = Raise (AssertionError "x and y must have the same length")) /\
  (length y = length x -> ~ strictly_increasing x ->
   schumaker_spline x y s return_type
   = Raise (AssertionError "x must be in ascending order")) /\
  (length y = length x -> strictly_increasing x ->
   forall sl, s = Some sl -> length sl <> length x ->
   schumaker_spline x y s return_type
   = Raise (AssertionError "s must have the same length as x and y")).
Proof.
  split; [|split].
  - intros H. apply schumaker_raise. unfold build. cbn zeta.
    destruct (Nat.eqb_spec (length y) (length x)); [contradiction|].
    reflexivity.
  - intros H1 H2. apply schumaker_raise. unfold build. cbn zeta.
    apply Nat.eqb_eq in H1. rewrite H1. cbn [assert bind].
    destruct (all_positive (diff x)) eqn:E; [|reflexivity].
    exfalso. apply H2. apply all_positive_diff. assumption.
  - intros H1 H2 sl -> H3. apply schumaker_raise. unfold build. cbn zeta.
    apply Nat.eqb_eq in H1. rewrite H1. cbn [assert bind].
    apply all_positive_diff in H2. rewrite H2. cbn [assert bind].
    destruct (Nat.eqb_spec (length sl) (length x)); [contradiction|].
    reflexivity.
Qed.

(** ** Fewer than two points *)

(** X11: fewer than two points are not rejected by the validation.  Without
    slopes the routine then fails with [IndexError] (at [delta[0]], line
    37), for any return type.  With one point and one supplied slope it
    returns the single knot and an empty coefficient table; with no point
    and an empty slope sequence it fails with [IndexError] (line 83). *)
Theorem fewer_than_two_points (return_type : string) :
  (forall x y, (length x < 2)%nat -> length y = length x ->
     schumaker_spline x y None return_type = Raise IndexError) /\
  (forall x0 y0 s0,
     schumaker_spline [x0] [y0] (Some [s0]) "coeffs"
     = Ok (OutCoeffs [x0] [])) /\
  schumaker_spline [] [] (Some []) return_type = Raise IndexError.
Proof.
  split; [|split].
  - intros x y Hx Hy. apply schumaker_raise.
    destruct x as [|x0 [|x1 x]]; [| |simpl in Hx; lia].
    + destruct y; [reflexivity | discriminate].
    + destruct y as [|y0 [|y1 y]]; try discriminate. reflexivity.
  - reflexivity.
  - reflexivity.
Qed.

(** ** The export with estimated slopes *)

(** X12: with estimated slopes the symbolic mode returns on every
    well-formed input, with at least one piece per data interval and at most
    two. *)
Theorem export_returns (x y : list R) :
  valid_input x y None ->
  exists P,
    schumaker_spline x y None "sympy" = Ok (OutPiecewise P) /\
    (length x - 1 <= length P <= 2 * (length x - 1))%nat.
Proof.
  intros H.
  destruct (schumaker_valid x y None H) as [(K0 & C & _ & B & Hi)|[N _]];
    [|contradiction].
  destruct Hi as (Hc & Hl & _). cbn [fst snd] in *.
  destruct H as (_ & Hn & _ & _).
  pose proof (chain_length _ _ _ _ Hc) as LC.
  rewrite schumaker_sympy, B. cbn [bind].
  rewrite length_app. cbn [length].
  rewrite pieces_loop by (rewrite ?length_app; cbn [length]; lia).
  cbn [bind].
  replace (length K0 + 1 - 1)%nat with (S (length K0 - 1)) by lia.
  set (P := map (piece_at (K0 ++ [nth (length x - 1) x 0]) C)
              (seq 0 (S (length K0 - 1)))).
  assert (LP : length P = S (length K0 - 1)).
  { unfold P. rewrite length_map, length_seq. reflexivity. }
  exists P. split; [|lia].
  destruct P; [discriminate | reflexivity].
Qed.

Lemma export_returns_witness :
  valid_input [0; 1; 3] [0; 1; 2] None /\
  exists P,
    schumaker_spline [0; 1; 3] [0; 1; 2] None "sympy" = Ok (OutPiecewise P) /\
    (3 - 1 <= length P <= 2 * (3 - 1))%nat.
Proof.
  split; [valid_tac|].
  apply (export_returns [0; 1; 3] [0; 1; 2]). valid_tac.
Defined.

(** ** Shifting the data *)

Lemma diff_shift (c : R) (l : list R) :
  diff (map (fun v => v + c) l) = diff l.
Proof.
  induction l as [|a [|b t] IH]; try reflexivity.
  change (diff (map (fun v => v + c) (a :: b :: t)))
    with ((b + c - (a + c)) :: diff (map (fun v => v + c) (b :: t))).
  rewrite IH. cbn [diff]. f_equal. ring.
Qed.

Lemma getitem_map {A B : Type} (f : A -> B) (l : list A) (i : nat) :
  getitem (map f l) i = map_result f (getitem l i).
Proof.
  unfold getitem. rewrite nth_error_map.
  destruct (nth_error l i); reflexivity.
Qed.

Lemma for_each_related {S : Type} (phi : S -> S)
  (body body' : S -> nat -> result S) (idx : list nat) (st : S) :
  (forall st i, body' (phi st) i = map_result phi (body st i)) ->
  for_each idx body' (phi st) = map_result phi (for_each idx body st).
Proof.
  intros H. revert st. induction idx as [|i idx IH]; intros st; cbn [for_each].
  - reflexivity.
  - rewrite H. destruct (body st i) as [st'|e]; cbn [bind map_result].
    + apply IH.
    + reflexivity.
Qed.

Lemma estimate_slopes_raise (c : R) (x y : list R) :
  estimate_slopes x (map (fun v => v + c) y) = estimate_slopes x y.
Proof.
  unfold estimate_slopes, chord_lengths, secants.
  rewrite diff_shift. reflexivity.
Qed.

Lemma split_coeffs_raise (c xi xi1 yi yi1 si si1 e : R) :
  split_coeffs xi xi1 (yi + c) (yi1 + c) si si1 e
  = (raise_coeff c (fst (split_coeffs xi xi1 yi yi1 si si1 e)),
     raise_coeff c (snd (split_coeffs xi xi1 yi yi1 si si1 e))).
Proof.
  unfold split_coeffs, raise_coeff, coeff_A, coeff_B, coeff_C. cbn [fst snd].
  replace (yi1 + c - (yi + c)) with (yi1 - yi) by ring.
  apply f_equal2; [reflexivity|].
  apply f_equal2; [|reflexivity]. apply f_equal2; [|reflexivity]. ring.
Qed.

Lemma interval_step_raise (c : R) (x y s : list R) (delta : option (list R))
  (K : list R) (C : list coeff) (i : nat) :
  interval_step x (map (fun v => v + c) y) s delta
    (K, map (raise_coeff c) C) i
  = map_result (fun st => (fst st, map (raise_coeff c) (snd st)))
      (interval_step x y s delta (K, C) i).
Proof.
  unfold interval_step. rewrite !getitem_map.
  destruct (getitem x i) as [xi|e]; [|reflexivity]. cbn [bind].
  destruct (getitem s i) as [si|e]; [|reflexivity]. cbn [bind].
  destruct (getitem s (i + 1)) as [si1|e]; [|reflexivity]. cbn [bind].
  destruct (getitem y (i + 1)) as [yi1|e]; [|reflexivity].
  cbn [bind map_result].
  destruct (getitem y i) as [yi|e]; [|reflexivity]. cbn [bind map_result].
  destruct (getitem x (i + 1)) as [xi1|e]; [|reflexivity]. cbn [bind].
  replace (yi1 + c - (yi + c)) with (yi1 - yi) by ring.
  destruct (Req_dec_T _ _) as [E|E].
  - cbn [map_result fst snd]. rewrite map_app. reflexivity.
  - destruct (read_local delta) as [dl|e]; [|reflexivity]. cbn [bind].
    destruct (getitem dl i) as [di|e]; [|reflexivity]. cbn [bind].
    rewrite split_coeffs_raise.
    destruct (split_coeffs xi xi1 yi yi1 si si1 _) as [c1 c2].
    cbn [map_result fst snd]. rewrite !map_app. reflexivity.
Qed.

Lemma build_raise (c : R) (x y : list R) (s : option (list R)) :
  build x (map (fun v => v + c) y) s
  = map_result (fun st => (fst st, map (raise_coeff c) (snd st)))
      (build x y s).
Proof.
  unfold build. cbn zeta. rewrite length_map.
  destruct (assert (length y =? length x)%nat _) as [[]|e]; [|reflexivity].
  cbn [bind].
  destruct (assert (all_positive (diff x)) _) as [[]|e]; [|reflexivity].
  cbn [bind].
  destruct (match s with Some sl => _ | None => _ end) as [[]|e];
    [|reflexivity].
  cbn [bind].
  assert (Es : (match s with
                | Some sl => Ok (sl, None)
                | None => sl <- estimate_slopes x (map (fun v => v + c) y) ;;
                          Ok (sl, Some (secants x (map (fun v => v + c) y)))
                end)
               = (match s with
                  | Some sl => Ok (sl, None)
                  | None => sl <- estimate_slopes x y ;;
                            Ok (sl, Some (secants x y))
                  end)).
  { destruct s; [reflexivity|]. rewrite estimate_slopes_raise.
    unfold secants. rewrite diff_shift. reflexivity. }
  rewrite Es. clear Es.
  destruct (match s with Some sl => _ | None => _ end) as [[sl delta]|e];
    [|reflexivity].
  cbn [bind].
  pose proof (for_each_related
                (fun st => (fst st, map (raise_coeff c) (snd st)))
                (interval_step x y sl delta)
                (interval_step x (map (fun v => v + c) y) sl delta)
                (seq 0 (length x - 1)) ([], [])) as F.
  cbn [fst snd map] in F. rewrite F; clear F.
  - destruct (for_each (seq 0 (length x - 1)) (interval_step x y sl delta)
                ([], [])) as [[K C]|e]; [|reflexivity].
    cbn [map_result bind fst snd].
    destruct (getitem x (length x - 1)); reflexivity.
  - intros [K C] i. cbn [fst snd]. apply interval_step_raise.
Qed.

(** X13: in exact arithmetic (for binary64 see [vertical_shift_binary64]),
    raising every ordinate by the same amount [c]
    raises the spline by
    [c] and changes nothing else: the same knots, the same [B] and [C]
    coefficients, every [A] increased by [c]; failures are the same. *)
Theorem vertical_shift (c : R) (x y : list R) (s : option (list R)) :
  schumaker_spline x (map (fun v => v + c) y) s "coeffs"
  = map_result (raise_output c) (schumaker_spline x y s "coeffs").
Proof.
  rewrite !schumaker_coeffs, build_raise.
  destruct (build x y s) as [[K C]|e]; reflexivity.
Qed.

Lemma estimate_slopes_move (c : R) (x y : list R) :
  estimate_slopes (map (fun v => v + c) x) y = estimate_slopes x y.
Proof.
  unfold estimate_slopes, chord_lengths, secants.
  rewrite diff_shift, length_map. reflexivity.
Qed.

Lemma new_knot_move (c xi xi1 si si1 di : R) :
  new_knot (xi + c) (xi1 + c) si si1 di = new_knot xi xi1 si si1 di + c.
Proof.
  unfold new_knot. replace (xi1 + c - (xi + c)) with (xi1 - xi) by ring.
  destruct (Rge_dec _ _); [lra|].
  destruct (Rlt_dec _ _).
  - set (X := 2 * (xi1 - xi) * (si1 - di) / (si1 - si)). lra.
  - set (X := 2 * (xi1 - xi) * (si - di) / (si1 - si)). lra.
Qed.

Lemma split_coeffs_move (c xi xi1 yi yi1 si si1 e : R) :
  split_coeffs (xi + c) (xi1 + c) yi yi1 si si1 (e + c)
  = split_coeffs xi xi1 yi yi1 si si1 e.
Proof.
  unfold split_coeffs.
  replace (e + c - (xi + c)) with (e - xi) by ring.
  replace (xi1 + c - (e + c)) with (xi1 - e) by ring.
  replace (xi1 + c - (xi + c)) with (xi1 - xi) by ring.
  reflexivity.
Qed.

Lemma interval_step_move (c : R) (x y s : list R) (delta : option (list R))
  (K : list R) (C : list coeff) (i : nat) :
  interval_step (map (fun v => v + c) x) y s delta
    (map (fun v => v + c) K, C) i
  = map_result (fun st => (map (fun v => v + c) (fst st), snd st))
      (interval_step x y s delta (K, C) i).
Proof.
  unfold interval_step. rewrite !getitem_map.
  destruct (getitem x i) as [xi|e]; [|reflexivity]. cbn [bind map_result].
  destruct (getitem s i) as [si|e]; [|reflexivity]. cbn [bind].
  destruct (getitem s (i + 1)) as [si1|e]; [|reflexivity]. cbn [bind].
  destruct (getitem y (i + 1)) as [yi1|e]; [|reflexivity]. cbn [bind].
  destruct (getitem y i) as [yi|e]; [|reflexivity]. cbn [bind].
  destruct (getitem x (i + 1)) as [xi1|e]; [|reflexivity].
  cbn [bind map_result].
  replace (xi1 + c - (xi + c)) with (xi1 - xi) by ring.
  destruct (Req_dec_T _ _) as [E|E].
  - cbn [map_result fst snd]. rewrite map_app. reflexivity.
  - destruct (read_local delta) as [dl|e]; [|reflexivity]. cbn [bind].
    destruct (getitem dl i) as [di|e]; [|reflexivity]. cbn [bind].
    rewrite new_knot_move, split_coeffs_move.
    destruct (split_coeffs xi xi1 yi yi1 si si1 _) as [c1 c2].
    cbn [map_result fst snd]. rewrite !map_app. reflexivity.
Qed.

Lemma build_move (c : R) (x y : list R) (s : option (list R)) :
  build (map (fun v => v + c) x) y s
  = map_result (fun st => (map (fun v => v + c) (fst st), snd st))
      (build x y s).
Proof.
  unfold build. cbn zeta. rewrite length_map, diff_shift.
  destruct (assert (length y =? length x)%nat _) as [[]|e]; [|reflexivity].
  cbn [bind].
  destruct (assert (all_positive (diff x)) _) as [[]|e]; [|reflexivity].
  cbn [bind].
  destruct (match s with Some sl => _ | None => _ end) as [[]|e];
    [|reflexivity].
  cbn [bind].
  assert (Es : (match s with
                | Some sl => Ok (sl, None)
                | None => sl <- estimate_slopes (map (fun v => v + c) x) y ;;
                          Ok (sl, Some (secants (map (fun v => v + c) x) y))
                end)
               = (match s with
                  | Some sl => Ok (sl, None)
                  | None => sl <- estimate_slopes x y ;;
                            Ok (sl, Some (secants x y))
                  end)).
  { destruct s; [reflexivity|]. rewrite estimate_slopes_move.
    unfold secants. rewrite diff_shift. reflexivity. }
  rewrite Es. clear Es.
  destruct (match s with Some sl => _ | None => _ end) as [[sl delta]|e];
    [|reflexivity].
  cbn [bind].
  pose proof (for_each_related
                (fun st => (map (fun v => v + c) (fst st), snd st))
                (interval_step x y sl delta)
                (interval_step (map (fun v => v + c) x) y sl delta)
                (seq 0 (length x - 1)) ([], [])) as F.
  cbn [fst snd map] in F. rewrite F; clear F.
  - destruct (for_each (seq 0 (length x - 1)) (interval_step x y sl delta)
                ([], [])) as [[K C]|e]; [|reflexivity].
    cbn [map_result bind fst snd]. rewrite getitem_map.
    destruct (getitem x (length x - 1)); cbn [map_result bind fst snd];
      [|reflexivity].
    rewrite map_app. reflexivity.
  - intros [K C] i. cbn [fst snd]. apply interval_step_move.
Qed.

(** X14: in exact arithmetic (for binary64 see
    [horizontal_shift_binary64]), moving every abscissa by the same amount [c]
    moves the knots by
    [c] and changes nothing else: the coefficient triples, which are
    relative to the left knot of their piece, are the same; failures are the
    same. *)
Theorem horizontal_shift (c : R) (x y : list R) (s : option (list R)) :
  schumaker_spline (map (fun v => v + c) x) y s "coeffs"
  = map_result (move_output c) (schumaker_spline x y s "coeffs").
Proof.
  rewrite !schumaker_coeffs, build_move.
  destruct (build x y s) as [[K C]|e]; reflexivity.
Qed.

(** ** Mirroring the data *)

Lemma diff_opp (l : list R) : diff (map Ropp l) = map Ropp (diff l).
Proof.
  induction l as [|a [|b t] IH]; try reflexivity.
  change (diff (map Ropp (a :: b :: t)))
    with ((- b - - a) :: diff (map Ropp (b :: t))).
  rewrite IH. cbn [diff map]. f_equal. ring.
Qed.

Lemma map2_ext_map (f g : R -> R -> R) (h1 h2 : R -> R) (l1 l2 : list R) :
  (forall a b, f (h1 a) (h2 b) = g a b) ->
  map2 f (map h1 l1) (map h2 l2) = map2 g l1 l2.
Proof.
  intros H. revert l2; induction l1 as [|a l1 IH]; intros [|b l2];
    cbn [map map2]; try reflexivity.
  rewrite H, IH. reflexivity.
Qed.

Lemma map2_map_out (f : R -> R -> R) (h : R -> R) (l1 l2 : list R) :
  map h (map2 f l1 l2) = map2 (fun a b => h (f a b)) l1 l2.
Proof.
  revert l2; induction l1 as [|a l1 IH]; intros [|b l2];
    cbn [map map2]; try reflexivity.
  rewrite IH. reflexivity.
Qed.

Lemma chord_lengths_opp (x y : list R) :
  chord_lengths x (map Ropp y) = chord_lengths x y.
Proof.
  unfold chord_lengths. rewrite diff_opp.
  rewrite <- (map_id (diff x)) at 1.
  apply map2_ext_map. intros a b. f_equal. ring.
Qed.

Lemma secants_opp (x y : list R) :
  secants x (map Ropp y) = map Ropp (secants x y).
Proof.
  unfold secants. rewrite diff_opp, map2_map_out.
  rewrite <- (map_id (diff x)) at 1.
  apply map2_ext_map. intros a b. unfold Rdiv. ring.
Qed.

Lemma update_map (f : R -> R) (l : list R) (i : nat) (v : R) :
  update (map f l) i (f v) = map f (update l i v).
Proof.
  revert i; induction l as [|a l IH]; intros [|i]; cbn [map update];
    try reflexivity.
  rewrite IH. reflexivity.
Qed.

Lemma setitem_map (f : R -> R) (l : list R) (i : nat) (v : R) :
  setitem (map f l) i (f v) = map_result (map f) (setitem l i v).
Proof.
  unfold setitem. rewrite length_map.
  destruct (i <? length l)%nat; [|reflexivity].
  cbn [map_result]. rewrite update_map. reflexivity.
Qed.

Lemma repeat_opp (n : nat) : map Ropp (repeat 0 n) = repeat 0 n.
Proof.
  induction n as [|n IH]; [reflexivity|].
  cbn [repeat map]. rewrite IH, Ropp_0. reflexivity.
Qed.

Lemma slope_step_opp (L delta s : list R) (i : nat) :
  slope_step L (map Ropp delta) (map Ropp s) i
  = map_result (map Ropp) (slope_step L delta s i).
Proof.
  unfold slope_step. rewrite !getitem_map.
  destruct (getitem delta (i - 1)) as [d0|e]; [|reflexivity].
  cbn [bind map_result].
  destruct (getitem delta i) as [d1|e]; [|reflexivity]. cbn [bind map_result].
  replace (- d0 * - d1) with (d0 * d1) by ring.
  destruct (Rlt_dec _ _).
  - destruct (getitem L (i - 1)) as [L0|e]; [|reflexivity]. cbn [bind].
    destruct (getitem L i) as [L1|e]; [|reflexivity]. cbn [bind].
    replace ((L0 * - d0 + L1 * - d1) / (L0 + L1))
      with (- ((L0 * d0 + L1 * d1) / (L0 + L1))) by (unfold Rdiv; ring).
    apply setitem_map.
  - rewrite <- Ropp_0 at 1. apply setitem_map.
Qed.

Lemma estimate_slopes_opp (x y : list R) :
  estimate_slopes x (map Ropp y)
  = map_result (map Ropp) (estimate_slopes x y).
Proof.
  unfold estimate_slopes. cbn zeta.
  rewrite chord_lengths_opp, secants_opp.
  rewrite <- (repeat_opp (length x)) at 1.
  rewrite (for_each_related (map Ropp)
             (slope_step (chord_lengths x y) (secants x y))
             (slope_step (chord_lengths x y) (map Ropp (secants x y))))
    by (intros; apply slope_step_opp).
  destruct (for_each _ _ _) as [s0|e]; [|reflexivity].
  cbn [map_result bind]. rewrite !getitem_map.
  destruct (getitem (secants x y) 0) as [d0|e]; [|reflexivity].
  cbn [map_result bind].
  destruct (getitem s0 1) as [s1|e]; [|reflexivity]. cbn [map_result bind].
  replace ((3 * - d0 - - s1) / 2) with (- ((3 * d0 - s1) / 2)) by lra.
  rewrite setitem_map.
  destruct (setitem s0 0 _) as [s2|e]; [|reflexivity]. cbn [map_result bind].
  destruct (getitem (secants x y) (length x - 2)) as [dl|e]; [|reflexivity].
  cbn [map_result bind]. rewrite getitem_map.
  destruct (getitem s2 (length x - 2)) as [sl|e]; [|reflexivity].
  cbn [map_result bind].
  replace ((3 * - dl - - sl) / 2) with (- ((3 * dl - sl) / 2)) by lra.
  apply setitem_map.
Qed.

Lemma new_knot_opp (xi xi1 si si1 di : R) :
  new_knot xi xi1 (- si) (- si1) (- di) = new_knot xi xi1 si si1 di.
Proof.
  unfold new_knot.
  replace ((- si - - di) * (- si1 - - di)) with ((si - di) * (si1 - di))
    by ring.
  replace (- si1 - - di) with (- (si1 - di)) by ring.
  replace (- si - - di) with (- (si - di)) by ring.
  replace (- si1 - - si) with (- (si1 - si)) by ring.
  rewrite !Rabs_Ropp.
  destruct (Rge_dec _ _); [reflexivity|].
  destruct (Rlt_dec _ _); rewrite Rdiv_opp_r; do 2 f_equal; unfold Rdiv; ring.
Qed.

Lemma split_coeffs_opp (xi xi1 yi yi1 si si1 e : R) :
  split_coeffs xi xi1 (- yi) (- yi1) (- si) (- si1) e
  = (negate_coeff (fst (split_coeffs xi xi1 yi yi1 si si1 e)),
     negate_coeff (snd (split_coeffs xi xi1 yi yi1 si si1 e))).
Proof.
  unfold split_coeffs, negate_coeff, coeff_A, coeff_B, coeff_C.
  cbn [fst snd].
  repeat apply f_equal2; try reflexivity; unfold Rdiv; ring.
Qed.

Lemma interval_step_opp (x y s : list R) (delta : option (list R))
  (K : list R) (C : list coeff) (i : nat) :
  interval_step x (map Ropp y) (map Ropp s) (option_map (map Ropp) delta)
    (K, map negate_coeff C) i
  = map_result (fun st => (fst st, map negate_coeff (snd st)))
      (interval_step x y s delta (K, C) i).
Proof.
  unfold interval_step. rewrite !getitem_map.
  destruct (getitem x i) as [xi|e]; [|reflexivity]. cbn [bind].
  destruct (getitem s i) as [si|e]; [|reflexivity]. cbn [bind map_result].
  destruct (getitem s (i + 1)) as [si1|e]; [|reflexivity].
  cbn [bind map_result].
  destruct (getitem y (i + 1)) as [yi1|e]; [|reflexivity].
  cbn [bind map_result].
  destruct (getitem y i) as [yi|e]; [|reflexivity]. cbn [bind map_result].
  destruct (getitem x (i + 1)) as [xi1|e]; [|reflexivity]. cbn [bind].
  replace ((- yi1 - - yi) / (xi1 - xi)) with (- ((yi1 - yi) / (xi1 - xi)))
    by (unfold Rdiv; ring).
  destruct (Req_dec_T ((- si + - si1) / 2) _) as [E|E];
    destruct (Req_dec_T ((si + si1) / 2) _) as [E'|E']; try (exfalso; lra).
  - cbn [map_result fst snd]. rewrite map_app. cbn [map].
    do 3 f_equal. unfold negate_coeff, coeff_A, coeff_B, coeff_C.
    cbn [fst snd]. repeat apply f_equal2; try reflexivity. unfold Rdiv. ring.
  - destruct delta as [dl|]; cbn [option_map read_local bind]; [|reflexivity].
    rewrite getitem_map.
    destruct (getitem dl i) as [di|e]; [|reflexivity]. cbn [bind map_result].
    rewrite new_knot_opp, split_coeffs_opp.
    destruct (split_coeffs xi xi1 yi yi1 si si1 _) as [c1 c2].
    cbn [map_result fst snd]. rewrite !map_app. reflexivity.
Qed.

Lemma build_opp (x y : list R) (s : option (list R)) :
  build x (map Ropp y) (option_map (map Ropp) s)
  = map_result (fun st => (fst st, map negate_coeff (snd st))) (build x y s).
Proof.
  unfold build. cbn zeta. rewrite length_map.
  destruct (assert (length y =? length x)%nat _) as [[]|e]; [|reflexivity].
  cbn [bind].
  destruct (assert (all_positive (diff x)) _) as [[]|e]; [|reflexivity].
  cbn [bind].
  assert (Ea : match option_map (map Ropp) s with
               | Some sl => assert (length sl =? length x)%nat
                              "s must have the same length as x and y"
               | None => Ok tt
               end
               = match s with
                 | Some sl => assert (length sl =? length x)%nat
                                "s must have the same length as x and y"
                 | None => Ok tt
                 end).
  { destruct s; cbn [option_map]; [rewrite length_map|]; reflexivity. }
  rewrite Ea. clear Ea.
  destruct (match s with Some sl => _ | None => _ end) as [[]|e];
    [|reflexivity].
  cbn [bind].
  assert (Es : (match option_map (map Ropp) s with
                | Some sl => Ok (sl, None)
                | None => sl <- estimate_slopes x (map Ropp y) ;;
                          Ok (sl, Some (secants x (map Ropp y)))
                end)
               = map_result
                   (fun p => (map Ropp (fst p), option_map (map Ropp) (snd p)))
                   (match s with
                    | Some sl => Ok (sl, None)
                    | None => sl <- estimate_slopes x y ;;
                              Ok (sl, Some (secants x y))
                    end)).
  { destruct s; cbn [option_map]; [reflexivity|].
    rewrite estimate_slopes_opp, secants_opp.
    destruct (estimate_slopes x y); reflexivity. }
  rewrite Es. clear Es.
  destruct (match s with Some sl => _ | None => _ end) as [[sl delta]|e];
    [|reflexivity].
  cbn [bind map_result fst snd].
  pose proof (for_each_related
                (fun st => (fst st, map negate_coeff (snd st)))
                (interval_step x y sl delta)
                (interval_step x (map Ropp y) (map Ropp sl)
                   (option_map (map Ropp) delta))
                (seq 0 (length x - 1)) ([], [])) as F.
  cbn [fst snd map] in F. rewrite F; clear F.
  - destruct (for_each (seq 0 (length x - 1)) (interval_step x y sl delta)
                ([], [])) as [[K C]|e]; [|reflexivity].
    cbn [map_result bind fst snd].
    destruct (getitem x (length x - 1)); reflexivity.
  - intros [K C] i. cbn [fst snd]. apply interval_step_opp.
Qed.

(** X15: mirroring the data in the x axis mirrors the spline.  With every
    ordinate (and every supplied slope) negated, the routine returns the
    same knots and the negated coefficient triples; failures are the
    same. *)
Theorem mirrored_data (x y : list R) (s : option (list R)) :
  schumaker_spline x (map Ropp y) (option_map (map Ropp) s) "coeffs"
  = map_result negate_output (schumaker_spline x y s "coeffs").
Proof.
  rewrite !schumaker_coeffs, build_opp.
  destruct (build x y s) as [[K C]|e]; reflexivity.
Qed.

(** * The routine in binary64: what survives rounding *)

Lemma f64_length_update (l : list float) (i : nat) (v : float) :
  length (F64.update l i v) = length l.
Proof.
  revert i; induction l as [|a l IH]; intros [|i]; simpl; auto.
Qed.

Lemma f64_setitem_in (l : list float) (i : nat) (v : float) :
  (i < length l)%nat -> F64.setitem l i v = Ok (F64.update l i v).
Proof.
  intros H. unfold F64.setitem.
  destruct (Nat.ltb_spec i (length l)); [reflexivity | lia].
Qed.

Lemma f64_length_diff (l : list float) :
  length (F64.diff l) = (length l - 1)%nat.
Proof.
  induction l as [|a [|b t] IH]; simpl in *; auto.
  rewrite IH. lia.
Qed.

Lemma f64_length_map2 (f : float -> float -> float) (l1 l2 : list float) :
  length (F64.map2 f l1 l2) = Nat.min (length l1) (length l2).
Proof.
  revert l2; induction l1 as [|a l1 IH]; intros [|b l2]; simpl; auto.
Qed.

Lemma f64_length_secants (x y : list float) :
  length y = length x -> length (F64.secants x y) = (length x - 1)%nat.
Proof.
  intros H. unfold F64.secants.
  rewrite f64_length_map2, !f64_length_diff, H. lia.
Qed.

Lemma f64_length_chord_lengths (x y : list float) :
  length y = length x -> length (F64.chord_lengths x y) = (length x - 1)%nat.
Proof.
  intros H. unfold F64.chord_lengths.
  rewrite f64_length_map2, !f64_length_diff, H. lia.
Qed.

Section F64Slopes.

Variables x y : list float.
Hypothesis Hy : length y = length x.

Lemma f64_slope_step_total (s : list float) (i : nat) :
  (1 <= i)%nat -> (i + 1 < length x)%nat -> length s = length x ->
  exists s', F64.slope_step (F64.chord_lengths x y) (F64.secants x y) s i
             = Ok s' /\ length s' = length x.
Proof.
  intros H1 H2 Hs. unfold F64.slope_step.
  pose proof (f64_length_secants x y Hy) as LS.
  pose proof (f64_length_chord_lengths x y Hy) as LC.
  rewrite (getitem_nth (F64.secants x y) (i - 1) 0%float) by lia.
  rewrite (getitem_nth (F64.secants x y) i 0%float) by lia. cbn [bind].
  destruct (PrimFloat.ltb _ _).
  - rewrite (getitem_nth (F64.chord_lengths x y) (i - 1) 0%float) by lia.
    rewrite (getitem_nth (F64.chord_lengths x y) i 0%float) by lia.
    cbn [bind]. rewrite f64_setitem_in by lia.
    eexists. split; [reflexivity|]. rewrite f64_length_update. assumption.
  - rewrite f64_setitem_in by lia.
    eexists. split; [reflexivity|]. rewrite f64_length_update. assumption.
Qed.

Lemma f64_interior_loop_total (m : nat) :
  (m + 2 <= length x)%nat ->
  exists s, for_each (seq 1 m)
              (F64.slope_step (F64.chord_lengths x y) (F64.secants x y))
              (repeat 0%float (length x)) = Ok s /\
            length s = length x.
Proof.
  induction m as [|m IH]; intros Hm.
  - eexists. split; [reflexivity|]. apply repeat_length.
  - destruct IH as (s & E & Ls); [lia|].
    rewrite seq_S, for_each_app, E. cbn [bind for_each Nat.add].
    destruct (f64_slope_step_total s (S m)) as (s' & E' & Ls'); try lia.
    rewrite E'. cbn [bind]. eauto.
Qed.

Lemma f64_estimate_slopes_total :
  (2 <= length x)%nat ->
  exists s, F64.estimate_slopes x y = Ok s /\ length s = length x.
Proof.
  intros Hn. unfold F64.estimate_slopes. cbn zeta.
  destruct (f64_interior_loop_total (length x - 2)) as (s0 & E & Ls); [lia|].
  rewrite E. cbn [bind].
  pose proof (f64_length_secants x y Hy) as LS.
  rewrite (getitem_nth (F64.secants x y) 0 0%float) by lia.
  rewrite (getitem_nth s0 1 0%float) by lia. cbn [bind].
  rewrite f64_setitem_in by lia. cbn [bind].
  rewrite (getitem_nth (F64.secants x y) (length x - 2) 0%float) by lia.
  rewrite (getitem_nth (F64.update s0 0 _) (length x - 2) 0%float)
    by (rewrite f64_length_update; lia).
  cbn [bind]. rewrite f64_setitem_in by (rewrite f64_length_update; lia).
  eexists. split; [reflexivity|]. rewrite !f64_length_update. assumption.
Qed.

End F64Slopes.

Lemma f64_segments_S (x y s : list float) (delta : option (list float))
  (k : nat) :
  f64_segments x y s delta (S k) =
  (st <- f64_segments x y s delta k ;; F64.interval_step x y s delta st k).
Proof.
  unfold f64_segments. rewrite seq_S, for_each_app. simpl.
  destruct (for_each (seq 0 k) _ _) as [st|e]; simpl; [|reflexivity].
  destruct (F64.interval_step x y s delta st k); reflexivity.
Qed.

Section F64Loop.

Variables x y s : list float.
Variable delta : option (list float).
Hypothesis Hy : length y = length x.
Hypothesis Hs : length s = length x.
Hypothesis Hd :
  match delta with Some dl => length dl = (length x - 1)%nat | None => True end.

Lemma f64_interval_step_outcome (k : nat) (st : list float * list F64.coeff) :
  (k + 1 < length x)%nat -> f64_inv x k st ->
  (exists st', F64.interval_step x y s delta st k = Ok st' /\
               f64_inv x (S k) st') \/
  (delta = None /\ F64.interval_step x y s delta st k
                   = Raise UnboundLocalError).
Proof.
  intros Hk (HL & Hb & Hh). destruct st as [K C]. cbn [fst snd] in *.
  unfold F64.interval_step.
  rewrite (getitem_nth x k 0%float) by lia.
  rewrite (getitem_nth s k 0%float) by lia.
  rewrite (getitem_nth s (k + 1) 0%float) by lia.
  rewrite (getitem_nth y (k + 1) 0%float) by lia.
  rewrite (getitem_nth y k 0%float) by lia.
  rewrite (getitem_nth x (k + 1) 0%float) by lia.
  cbn [bind].
  assert (Hhd : forall l, hd (nth (S k) x 0%float) ((K ++ [nth k x 0%float]) ++ l)
                          = nth 0 x 0%float).
  { intros l. destruct K as [|t K]; cbn [app hd] in *; [|assumption].
    assert (k = 0)%nat by (simpl in Hb; lia). subst k. reflexivity. }
  destruct (PrimFloat.eqb _ _).
  - left. eexists. split; [reflexivity|]. unfold f64_inv. cbn [fst snd].
    rewrite !length_app. cbn [length]. split; [lia|]. split; [lia|].
    rewrite <- (app_nil_r (K ++ _)). apply Hhd.
  - destruct delta as [dl|]; cbn [read_local bind].
    + rewrite (getitem_nth dl k 0%float) by lia. cbn [bind].
      destruct (F64.split_coeffs _ _ _ _ _ _ _) as [c1 c2].
      left. eexists. split; [reflexivity|]. unfold f64_inv. cbn [fst snd].
      rewrite !length_app. cbn [length]. split; [lia|]. split; [lia|].
      apply Hhd.
    + right. split; reflexivity.
Qed.

Lemma f64_segments_outcome (k : nat) :
  (k < length x)%nat ->
  (exists st, f64_segments x y s delta k = Ok st /\ f64_inv x k st) \/
  (delta = None /\ f64_segments x y s delta k = Raise UnboundLocalError).
Proof.
  intros Hk. induction k as [|k IH].
  - left. exists ([], []). split; [reflexivity|].
    unfold f64_inv. simpl. repeat split; lia.
  - rewrite f64_segments_S. destruct IH as [(st & E & Hi)|[Dn E]]; [lia| |].
    + rewrite E. cbn [bind].
      destruct (f64_interval_step_outcome k st ltac:(lia) Hi)
        as [(st' & E' & Hi')|[Dn E']].
      * left. exists st'. split; assumption.
      * right. split; assumption.
    + right. split; [assumption|]. rewrite E. reflexivity.
Qed.

End F64Loop.

(** Outcome of the binary64 routine on a well-formed input. *)
Lemma f64_schumaker_valid (x y : list float) (s : option (list float)) :
  f64_valid_input x y s ->
  (exists K C,
      F64.schumaker_coeffs x y s = Ok (K ++ [nth (length x - 1) x 0%float], C) /\
      f64_inv x (length x - 1) (K, C)) \/
  (s <> None /\ F64.schumaker_coeffs x y s = Raise UnboundLocalError).
Proof.
  intros (Hy & Hn & Hx & Hs). unfold F64.schumaker_coeffs. cbn zeta.
  apply Nat.eqb_eq in Hy as Hyb. rewrite Hyb, Hx. cbn [assert bind].
  assert (Hseg : forall sl delta,
    length sl = length x ->
    match delta with Some dl => length dl = (length x - 1)%nat | None => True end ->
    (exists K C,
      ('(knots, coeffs) <- for_each (seq 0 (length x - 1))
                             (F64.interval_step x y sl delta) ([], []) ;;
       xl <- getitem x (length x - 1) ;; Ok (knots ++ [xl], coeffs))
      = Ok (K ++ [nth (length x - 1) x 0%float], C) /\
      f64_inv x (length x - 1) (K, C)) \/
    (delta = None /\
      ('(knots, coeffs) <- for_each (seq 0 (length x - 1))
                             (F64.interval_step x y sl delta) ([], []) ;;
       xl <- getitem x (length x - 1) ;; Ok (knots ++ [xl], coeffs))
      = Raise UnboundLocalError)).
  { intros sl delta Hl Hd.
    destruct (f64_segments_outcome x y sl delta Hy Hl Hd (length x - 1))
      as [([K C] & E & Hi)|[Dn E]]; [lia| |]; unfold f64_segments in E.
    - left. exists K, C. rewrite E. cbn [bind].
      rewrite (getitem_nth x (length x - 1) 0%float) by lia.
      split; [reflexivity | assumption].
    - right. split; [assumption|]. rewrite E. reflexivity. }
  destruct s as [sl|].
  - apply Nat.eqb_eq in Hs as Hsb. rewrite Hsb. cbn [assert bind].
    destruct (Hseg sl None Hs I) as [H|[_ H]]; [left; assumption|].
    right. split; [discriminate|assumption].
  - cbn [bind].
    destruct (f64_estimate_slopes_total x y Hy Hn) as (sl & E & Hl).
    rewrite E. cbn [bind].
    destruct (Hseg sl (Some (F64.secants x y)) Hl (f64_length_secants x y Hy))
      as [H|[H _]]; [left; assumption|discriminate].
Qed.

(** ** Shape of the knot sequence *)

(** C3, as the code has it.  Whatever the rounding, on every well-formed
    input of n points the returned knot sequence has between n and 2n-1
    entries, begins with x[0] and ends with x[n-1], and the coefficient
    table has one entry less than there are knots; with estimated slopes
    the routine does return.  In exact arithmetic the knots are moreover
    strictly increasing. *)
Theorem knots_shape :
  (forall (x y : list float) (s : option (list float)),
     f64_valid_input x y s ->
     (s = None -> exists K C, F64.schumaker_coeffs x y s = Ok (K, C)) /\
     (forall K C,
        F64.schumaker_coeffs x y s = Ok (K, C) ->
        (length x <= length K <= 2 * length x - 1)%nat /\
        nth 0 K 0%float = nth 0 x 0%float /\
        nth (length K - 1) K 0%float = nth (length x - 1) x 0%float /\
        length C = (length K - 1)%nat)) /\
  (forall (x y : list R) (s : option (list R)),
     valid_input x y s ->
     (s = None ->
      exists K C, schumaker_spline x y s "coeffs" = Ok (OutCoeffs K C)) /\
     (forall K C,
        schumaker_spline x y s "coeffs" = Ok (OutCoeffs K C) ->
        strictly_increasing K /\
        (length x <= length K <= 2 * length x - 1)%nat /\
        nth 0 K 0 = nth 0 x 0 /\
        nth (length K - 1) K 0 = nth (length x - 1) x 0 /\
        length C = (length K - 1)%nat)).
Proof.
  split; [|exact knots_shape_exact].
  intros x y s H. split.
  - intros ->. destruct (f64_schumaker_valid x y None H) as [(K & C & E & _)|[N _]].
    + eauto.
    + contradiction.
  - intros K C E.
    destruct (f64_schumaker_valid x y s H) as [(K0 & C0 & E0 & HL & Hb & Hh)|[_ E0]];
      rewrite E0 in E; [|discriminate].
    injection E as <- <-. cbn [fst snd] in *.
    destruct H as (_ & Hn & _ & _).
    rewrite length_app. cbn [length]. repeat split.
    + lia.
    + lia.
    + destruct K0 as [|t K0]; [simpl in Hb; lia|]. simpl in *. assumption.
    + replace (length K0 + 1 - 1)%nat with (length K0) by lia.
      apply nth_middle.
    + lia.
Qed.

Lemma knots_shape_witness :
  f64_valid_input rounded_x rounded_y None /\
  exists K C,
    F64.schumaker_coeffs rounded_x rounded_y None = Ok (K, C) /\
    (length rounded_x <= length K <= 2 * length rounded_x - 1)%nat /\
    nth 0 K 0%float = nth 0 rounded_x 0%float /\
    nth (length K - 1) K 0%float
    = nth (length rounded_x - 1) rounded_x 0%float /\
    length C = (length K - 1)%nat.
Proof.
  assert (V : f64_valid_input rounded_x rounded_y None).
  { unfold f64_valid_input. repeat split; try reflexivity. simpl. lia. }
  split; [exact V|].
  destruct (proj1 knots_shape rounded_x rounded_y None V) as [Hex Hall].
  destruct (Hex eq_refl) as (K & C & E).
  exists K, C. split; [exact E|]. exact (Hall K C E).
Defined.

(** C3 fails as stated on the code: on the well-formed input
    x = [0, 1, 5, 6], y = [0, 6, 30, 30] the blended slope s[1] is rounded
    to 6.0000000000000009, the knot of the interval [1, 5] is rounded onto
    its right end, and the returned knots [0, 1, 5, 5, 6] are not strictly
    increasing. *)
Lemma repeated_knot_binary64 :
  f64_valid_input rounded_x rounded_y None /\
  exists C,
    F64.schumaker_coeffs rounded_x rounded_y None
    = Ok ([0; 1; 5; 5; 6]%float, C) /\
    PrimFloat.ltb (nth 2 [0; 1; 5; 5; 6]%float 0%float)
                  (nth 3 [0; 1; 5; 5; 6]%float 0%float) = false.
Proof.
  split.
  - unfold f64_valid_input. repeat split; try reflexivity. simpl. lia.
  - eexists. split; [vm_compute; reflexivity | reflexivity].
Qed.

(** ** No check on the subdivision *)

(** C8, as the code has it: during subdivision nothing is checked and
    nothing is raised for a small or zero alpha or beta.  Whatever their
    values, on a well-formed input the routine either returns the knots and
    coefficients or, with supplied slopes that need a subdivision, raises
    [UnboundLocalError]. *)
Theorem subdivision_unchecked (x y : list float) (s : option (list float)) :
  f64_valid_input x y s ->
  (exists K C, F64.schumaker_coeffs x y s = Ok (K, C)) \/
  (s <> None /\ F64.schumaker_coeffs x y s = Raise UnboundLocalError).
Proof.
  intros H. destruct (f64_schumaker_valid x y s H) as [(K & C & E & _)|[N E]].
  - left. eauto.
  - right. auto.
Qed.

Lemma subdivision_unchecked_witness :
  f64_valid_input rounded_x rounded_y None /\
  ((exists K C, F64.schumaker_coeffs rounded_x rounded_y None = Ok (K, C)) \/
   (@None (list float) <> None /\
    F64.schumaker_coeffs rounded_x rounded_y None = Raise UnboundLocalError)).
Proof.
  assert (V : f64_valid_input rounded_x rounded_y None).
  { unfold f64_valid_input. repeat split; try reflexivity. simpl. lia. }
  split; [exact V|].
  exact (subdivision_unchecked rounded_x rounded_y None V).
Defined.

(** C8 fails on the code: on the well-formed input x = [0, 1, 5, 6],
    y = [0, 6, 30, 30] the knot inserted in [1, 5] is 5, so beta is zero;
    nothing is raised, the division by 2 beta is performed, and the routine
    returns the quadratic coefficient -infinity for the piece on [5, 5]. *)
Lemma zero_beta_not_rejected :
  f64_valid_input rounded_x rounded_y None /\
  exists K C,
    F64.schumaker_coeffs rounded_x rounded_y None = Ok (K, C) /\
    nth 2 K 0%float = nth 2 rounded_x 0%float /\
    PrimFloat.sub (nth 2 rounded_x 0%float) (nth 2 K 0%float) = 0%float /\
    snd (nth 2 C (0, 0, 0)%float) = neg_infinity.
Proof.
  split.
  - unfold f64_valid_input. repeat split; try reflexivity. simpl. lia.
  - eexists. eexists. split; [vm_compute; reflexivity|].
    split; [reflexivity|]. split; [vm_compute; reflexivity | reflexivity].
Qed.

(** ** Where rounding departs from exact arithmetic

    The properties proved above for the exact-arithmetic model that depend
    on an exact equality or on the exact value of a blended slope do not
    carry over to binary64.  The runs below show it on small inputs. *)

(** Straight-line data: the blended slope at x = 1 is rounded to
    6.0000000000000009, the test of line 46 fails on [1, 5], and a knot is
    inserted at 3. *)
Lemma straight_line_binary64 :
  exists C,
    F64.schumaker_coeffs [0; 1; 5; 6]%float [0; 6; 30; 36]%float None
    = Ok ([0; 1; 3; 5; 6]%float, C).
Proof. eexists. vm_compute. reflexivity. Qed.

(** A blended slope above both secants: the secants of the first two
    intervals are 6 and 6, the estimated slope between them is rounded to
    6.0000000000000009. *)
Lemma blended_slope_binary64 :
  F64.secants rounded_x rounded_y = [6; 6; 0]%float /\
  exists s1,
    F64.estimate_slopes rounded_x rounded_y = Ok [6; s1; 0; 0]%float /\
    PrimFloat.ltb 6 s1 = true.
Proof.
  split; [vm_compute; reflexivity|].
  eexists. split; [vm_compute; reflexivity | reflexivity].
Qed.

(** Raising the ordinates by 0.1 (as binary64 numbers) changes which
    intervals are subdivided. *)
Lemma vertical_shift_binary64 :
  exists C C',
    F64.schumaker_coeffs [0; 1; 5; 6]%float
      [0; 0x1.3333333333333p-1; 3; 3]%float None
    = Ok ([0; 0.5; 1; 3; 5; 6]%float, C) /\
    F64.schumaker_coeffs [0; 1; 5; 6]%float
      (map (fun v => PrimFloat.add v 0x1.999999999999ap-4)
         [0; 0x1.3333333333333p-1; 3; 3]%float) None
    = Ok ([0; 1; 3; 5; 6]%float, C').
Proof.
  eexists. eexists. split; vm_compute; reflexivity.
Qed.

(** Moving the abscissae by 10 changes the coefficient of the piece next to
    x = 7 from about -3.4e15 to -infinity. *)
Lemma horizontal_shift_binary64 :
  exists K C K' C',
    F64.schumaker_coeffs [0; 2; 7; 8]%float [0; 12; 42; 42]%float None
    = Ok (K, C) /\
    F64.schumaker_coeffs (map (fun v => PrimFloat.add v 10) [0; 2; 7; 8]%float)
      [0; 12; 42; 42]%float None
    = Ok (K', C') /\
    snd (nth 2 C (0, 0, 0)%float) = (-3377699720527872)%float /\
    snd (nth 2 C' (0, 0, 0)%float) = neg_infinity.
Proof.
  do 4 eexists. split; [vm_compute; reflexivity|].
  split; [vm_compute; reflexivity|]. split; reflexivity.
Qed.
